(** * Numeric primitives of the LSL correlator: [common.h] and [blas.h]

    A shallow embedding of the two headers of the correlator core:

    - [common.h]: the FFTW wisdom loader [read_wisdom], the polyphase
      filter bank kernels [sinc], [hanning], [hamming] (each overloaded
      for [double] and [float]) and the power functions [abs2]
      (overloaded for [Complex32] and [Complex64]);
    - [blas.h]: the strided kernels [blas_scal] and [blas_dotc_sub],
      templates over the element type.

    Floating-point values are IEEE-754 binary32 and binary64 numbers,
    with round-to-nearest-even arithmetic as specified by the Standard
    Library's [SpecFloat].  Memory is a finite map from element addresses
    to elements; a load or store outside of it has no defined result. *)

From Stdlib Require Import ZArith Lia Bool SpecFloat.
From stdpp Require Import gmap strings list.
From Equations Require Import Equations.

Open Scope Z_scope.

(** ** IEEE-754 formats and their arithmetic *)

Record format := Format { prec : Z; emax : Z }.

(** C++ [float]. *)
Definition binary32 : format := Format 24 128.
(** C++ [double]. *)
Definition binary64 : format := Format 53 1024.

Section FloatOps.
Variable fmt : format.

Definition fadd : spec_float -> spec_float -> spec_float :=
  SFadd (prec fmt) (emax fmt).
Definition fsub : spec_float -> spec_float -> spec_float :=
  SFsub (prec fmt) (emax fmt).
Definition fmul : spec_float -> spec_float -> spec_float :=
  SFmul (prec fmt) (emax fmt).
Definition fdiv : spec_float -> spec_float -> spec_float :=
  SFdiv (prec fmt) (emax fmt).

(** Conversion of a value of another format to [fmt]: exact when
    widening, rounded to nearest even when narrowing. *)
Definition fconv (x : spec_float) : spec_float :=
  match x with
  | S754_finite s m e =>
      binary_normalize (prec fmt) (emax fmt) (cond_Zopp s (Zpos m)) e s
  | _ => x
  end.

(** An integer as a value of the format. *)
Definition of_Z (z : Z) : spec_float :=
  binary_normalize (prec fmt) (emax fmt) z 0 false.
End FloatOps.

Definition fneg : spec_float -> spec_float := SFopp.
(** C++ [==] on floating-point operands. *)
Definition feq : spec_float -> spec_float -> bool := SFeqb.

Definition pzero : spec_float := S754_zero false.
Definition nzero : spec_float := S754_zero true.

(** Neither an infinity nor a NaN. *)
Definition is_finite (x : spec_float) : bool :=
  match x with
  | S754_zero _ | S754_finite _ _ _ => true
  | _ => false
  end.

Definition is_nan (x : spec_float) : bool :=
  match x with S754_nan => true | _ => false end.

(** The sign bit; a NaN is given none. *)
Definition sign_bit (x : spec_float) : bool :=
  match x with
  | S754_zero s | S754_infinity s | S754_finite s _ _ => s
  | S754_nan => false
  end.

(** ** The [double] literals of [common.h] *)

Definition d_1_0 : spec_float := S754_finite false 4503599627370496 (-52).
Definition d_0_5 : spec_float := S754_finite false 4503599627370496 (-53).
Definition d_0_54 : spec_float := S754_finite false 4863887597560136 (-53).
Definition d_0_46 : spec_float := S754_finite false 8286623314361713 (-54).
Definition d_0_08 : spec_float := S754_finite false 5764607523034235 (-56).

(** [1.0] as a [float]. *)
Definition f_1_0 : spec_float := S754_finite false 8388608 (-23).

(** [NPY_PI] of numpy's [npy_math.h],
    [3.141592653589793238462643383279502884], as the [double] the
    compiler reads it as. *)
Definition NPY_PI : spec_float := S754_finite false 7074237752028440 (-51).

(** [m * 2^e] is a [double] nearest to the decimal [num / 10^digits]:
    it has a 53-bit significand and is within half a unit in the last
    place of the decimal. *)
Definition nearest_double (m : positive) (e : Z) (num : Z) (digits : Z) : bool :=
  (2 ^ 52 <=? Z.pos m) && (Z.pos m <? 2 ^ 53) && (e <? 0) &&
  (2 * Z.abs (Z.pos m * 10 ^ digits - num * 2 ^ (- e)) <=? 10 ^ digits).

(** ** The C mathematical library

    [sin] and [cos] are calls into the platform's libm.  [cos_float] is
    the call [cos(x)] on a [float] argument, with its result as it enters
    the surrounding [double] expression: the overload chosen for it
    ([cosf] widened, or [cos] of the widened argument) depends on the
    headers in scope. *)
Class Libm := {
  sin : spec_float -> spec_float;
  cos : spec_float -> spec_float;
  cos_float : spec_float -> spec_float
}.

(** ** Complex types: [std::complex<float>] and [std::complex<double>] *)

Record complex (fmt : format) := Cx { real : spec_float; imag : spec_float }.
Arguments Cx {fmt} _ _.
Arguments real {fmt} _.
Arguments imag {fmt} _.

Definition Complex32 : Type := complex binary32.
Definition Complex64 : Type := complex binary64.

(** ** [common.h]: window kernels at [double] precision *)

Module F64.
Section WithLibm.
Context {libm : Libm}.

Definition sinc (x : spec_float) : spec_float :=
  if feq x pzero then d_1_0
  else fdiv binary64 (sin (fmul binary64 x NPY_PI)) (fmul binary64 x NPY_PI).

Definition hanning (x : spec_float) : spec_float :=
  fsub binary64 d_0_5 (fmul binary64 d_0_5 (cos x)).

Definition hamming (x : spec_float) : spec_float :=
  fsub binary64 d_0_54 (fmul binary64 d_0_46 (cos x)).
End WithLibm.
End F64.

(** ** [common.h]: window kernels at [float] precision

    The bodies are the same text as the [double] ones.  Their literals
    and [NPY_PI] are [double]s, so each expression is evaluated in
    [double] (the [float] argument is widened where it meets a [double])
    and the [return] narrows the value to [float]. *)

Module F32.
Section WithLibm.
Context {libm : Libm}.

Definition sinc (x : spec_float) : spec_float :=
  if feq (fconv binary64 x) pzero then fconv binary32 d_1_0
  else fconv binary32
         (fdiv binary64 (sin (fmul binary64 (fconv binary64 x) NPY_PI))
                        (fmul binary64 (fconv binary64 x) NPY_PI)).

Definition hanning (x : spec_float) : spec_float :=
  fconv binary32 (fsub binary64 d_0_5 (fmul binary64 d_0_5 (cos_float x))).

Definition hamming (x : spec_float) : spec_float :=
  fconv binary32 (fsub binary64 d_0_54 (fmul binary64 d_0_46 (cos_float x))).
End WithLibm.
End F32.

(** ** [common.h]: complex magnitude squared

    The two overloads, [float abs2(Complex32)] and
    [double abs2(Complex64)], have the same body, evaluated in the
    precision of the argument. *)
Definition abs2 {fmt : format} (z : complex fmt) : spec_float :=
  fadd fmt (fmul fmt (real z) (real z)) (fmul fmt (imag z) (imag z)).

(** ** Element types of the [blas.h] templates

    [blas_scal] and [blas_dotc_sub] are templates.  What both ask of the
    input element type [IType] is a product ([operator*=] in
    [blas_scal], [operator*] in [blas_dotc_sub]).  [blas_dotc_sub] also
    asks for a [conj] that its unqualified call of [conj] on [*X] can
    resolve to, and of the accumulator type [OType] initialisation from the
    literal [0.0] and [operator+=] with an [IType] operand. *)

Class Elem (IType : Type) := {
  mul : IType -> IType -> IType
}.

Class Conj (IType : Type) := {
  conj : IType -> IType
}.

Class Accum (IType OType : Type) := {
  zero : OType;
  add_assign : OType -> IType -> OType
}.

(** *** [std::complex]

    [operator*] computes the real part as [a*c - b*d] and the imaginary
    part as [a*d + b*c].  When both come out as NaN the language runtime
    may substitute another value (the C99 Annex G recovery of infinities
    in libgcc's [__mulsc3] and [__muldc3], switched off by
    [-fcx-limited-range]); that substitute, [mul_recover], is left to
    the runtime. *)

Class ComplexRuntime := {
  mul_recover : forall fmt : format, complex fmt -> complex fmt -> complex fmt
}.

(** The runtime without the recovery: the NaNs are returned as they are. *)
Definition limited_range : ComplexRuntime :=
  {| mul_recover := fun fmt _ _ => Cx S754_nan S754_nan |}.

Section ComplexOps.
Context {rt : ComplexRuntime} {fmt : format}.

Definition cconj (z : complex fmt) : complex fmt :=
  Cx (real z) (fneg (imag z)).

Definition cmul (z w : complex fmt) : complex fmt :=
  let a := real z in
  let b := imag z in
  let c := real w in
  let d := imag w in
  let x := fsub fmt (fmul fmt a c) (fmul fmt b d) in
  let y := fadd fmt (fmul fmt a d) (fmul fmt b c) in
  if is_nan x && is_nan y then mul_recover fmt z w else Cx x y.

Definition cadd (z w : complex fmt) : complex fmt :=
  Cx (fadd fmt (real z) (real w)) (fadd fmt (imag z) (imag w)).

(** [std::complex<T> accum = 0.0]. *)
Definition czero : complex fmt := Cx pzero pzero.
End ComplexOps.

#[export] Instance complex_elem {rt : ComplexRuntime} (fmt : format) :
  Elem (complex fmt) := {| mul := cmul |}.

#[export] Instance complex_conj (fmt : format) :
  Conj (complex fmt) := {| conj := cconj |}.

#[export] Instance complex_accum (fmt : format) :
  Accum (complex fmt) (complex fmt) := {| zero := czero; add_assign := cadd |}.

(** *** [float] and [double]

    [blas_scal] is the replacement of [cblas_sscal] and [cblas_dscal]:
    its product on [float] and [double] is the one of the format. *)

Definition real_elem (fmt : format) : Elem spec_float :=
  {| mul := fmul fmt |}.

(** *** The declarations of [conj]

    [blas_dotc_sub] calls [conj] unqualified (blas.h, line 37), and
    neither header declares a [conj] of its own or opens a namespace.
    The call is resolved through the type of its argument: a
    [std::complex] brings the namespace [std], where [<complex>] declares
    [std::conj]; [float] and [double] bring no namespace, and for them
    the call has nothing to resolve to, so that the template has no
    instantiation.  The comment above the template names what it
    replaces: [cblas_cdotc_sub] and [cblas_zdotc_sub], the two complex
    kernels. *)




(** ** [blas.h]

    A pointer is the address of an element, an integer; [X += incX]
    moves it by [incX] elements.  [h !! p] is the load [*p]: [None] where
    [p] does not point into an object.  The counter [i] stays below [N],
    so that [i++] never leaves the range of [int]. *)

Section Kernels.
Context {IType : Type} {E : Elem IType}.

(** The loop of [blas_scal], entered with counter [i] and pointer [X]. *)
Equations? scal_loop (N : Z) (alpha : IType) (incX : Z)
    (i : Z) (X : Z) (h : gmap Z IType) : option (gmap Z IType)
    by wf (Z.to_nat (N - i)) lt :=
  scal_loop N alpha incX i X h with decide (i < N) => {
    | right _ => Some h
    | left _ with h !! X => {
        | None => None
        | Some x =>
            scal_loop N alpha incX (i + 1) (X + incX)
                      (<[X := mul x alpha]> h) } }.
Proof. lia. Qed.

Definition blas_scal (N : Z) (alpha : IType) (X : Z) (incX : Z)
    (h : gmap Z IType) : option (gmap Z IType) :=
  scal_loop N alpha incX 0 X h.

Context {C : Conj IType} {OType : Type} {A : Accum IType OType}.

(** The loop of [blas_dotc_sub], entered with counter [i], pointers [X]
    and [Y] and accumulator [accum]. *)
Equations? dotc_loop (N : Z) (incX incY : Z) (h : gmap Z IType)
    (i : Z) (X Y : Z) (accum : OType) : option OType
    by wf (Z.to_nat (N - i)) lt :=
  dotc_loop N incX incY h i X Y accum with decide (i < N) => {
    | right _ => Some accum
    | left _ with h !! X, h !! Y => {
        | Some x, Some y =>
            dotc_loop N incX incY h (i + 1) (X + incX) (Y + incY)
                      (add_assign accum (mul (conj x) y))
        | _, _ => None } }.
Proof. lia. Qed.

(** The store [*p = v]. *)
Definition store (ho : gmap Z OType) (p : Z) (v : OType) :
    option (gmap Z OType) :=
  match ho !! p with
  | Some _ => Some (<[p := v]> ho)
  | None => None
  end.

(** [h] is the memory of the elements read, [ho] the memory [dotc]
    points into. *)
Definition blas_dotc_sub (N : Z) (X : Z) (incX : Z) (Y : Z) (incY : Z)
    (dotc : Z) (h : gmap Z IType) (ho : gmap Z OType) :
    option (gmap Z OType) :=
  match dotc_loop N incX incY h 0 X Y zero with
  | Some accum => store ho dotc accum
  | None => None
  end.

(** *** The sum that [blas_dotc_sub] is to compute

    [xs i] and [ys i] stand for [X[i*incX]] and [Y[i*incY]]. *)

(** One term added to the accumulator: [accum + conj(xs i) * ys i]. *)
Definition dotc_term (xs ys : Z -> IType) (accum : OType) (i : Z) : OType :=
  add_assign accum (mul (conj (xs i)) (ys i)).

(** The terms [i = 0 .. N-1] added to [zero], in increasing order of
    [i], in one accumulator. *)
Definition dotc_sum (xs ys : Z -> IType) (N : Z) : OType :=
  foldl (dotc_term xs ys) zero (seqZ 0 N).

(** The sequence [l] lies in memory from address [p] on, contiguously. *)
Definition array_at (h : gmap Z IType) (p : Z) (l : list IType) : Prop :=
  forall (k : nat) (x : IType), l !! k = Some x -> h !! (p + Z.of_nat k) = Some x.
End Kernels.

(** The sum of the powers [abs2] of a sequence of samples, added in
    order from zero in the precision of the samples. *)
Definition sum_abs2 {fmt : format} (zs : list (complex fmt)) : spec_float :=
  foldl (fun acc z => fadd fmt acc (abs2 z)) pzero zs.

(** The product [re * im] of every sample is finite in the precision of
    the samples: it neither overflows nor involves an infinity. *)
Definition cross_finite {fmt : format} (zs : list (complex fmt)) : bool :=
  forallb (fun z => is_finite (fmul fmt (real z) (imag z))) zs.

(** A number that is not negative: [+0], a positive number or [+inf]. *)
Definition nonneg (x : spec_float) : bool :=
  match x with
  | S754_nan => false
  | _ => negb (sign_bit x)
  end.

(** ** [common.h]: the wisdom loader

    [read_wisdom] acts on the world around it: the file system and the
    open streams of the C library, the plans FFTW has accumulated, and
    the attributes of the Python modules. *)

(** The Python objects the loader makes. *)
Inductive PyObject := Py_True | Py_False.

Definition PyBool_FromLong (v : Z) : PyObject :=
  if decide (v = 0) then Py_False else Py_True.

(** FFTW: [import_wisdom] is what [fftwf_import_wisdom_from_file] does
    with the contents of a stream, the status it returns and the
    planner's new state. *)
Class Fftw := {
  planner : Type;
  import_wisdom : string -> planner -> Z * planner
}.

Section Wisdom.
Context {F : Fftw}.

Record world := World {
  fs : gmap string string;              (* readable files, by path *)
  streams : gmap nat string;            (* open [FILE]s, by handle *)
  plans : planner;                      (* the state of FFTW *)
  modules : gmap Z (gmap string PyObject) (* attributes of each module *)
}.

(** Computations that act on the world. *)
Definition IO (T : Type) : Type := world -> T * world.

Definition ret {T} (v : T) : IO T := fun w => (v, w).
Definition bind {T U} (c : IO T) (k : T -> IO U) : IO U :=
  fun w => let '(v, w') := c w in k v w'.

(** [fopen(filename, "r")]: a new stream, or [NULL]. *)
Definition fopen_r (filename : string) : IO (option nat) := fun w =>
  match fs w !! filename with
  | Some contents =>
      let f := fresh (dom (streams w)) in
      (Some f, World (fs w) (<[f := contents]> (streams w)) (plans w) (modules w))
  | None => (None, w)
  end.

(** FFTW reads the stream [f]; for an [f] that is not an open stream
    the call has no defined behaviour, and [read_wisdom] never makes it. *)
Definition fftwf_import_wisdom_from_file (f : nat) : IO Z := fun w =>
  match streams w !! f with
  | Some contents =>
      let '(status, p) := import_wisdom contents (plans w) in
      (status, World (fs w) (streams w) p (modules w))
  | None => (0, w)
  end.

Definition fclose (f : nat) : IO unit := fun w =>
  (tt, World (fs w) (delete f (streams w)) (plans w) (modules w)).

(** [PyModule_AddObject(m, name, value)]: the attribute [name] of the
    module at [m] becomes [value]; nothing happens when [m] is not a
    module. *)
Definition PyModule_AddObject (m : Z) (name : string) (value : PyObject) :
    IO unit := fun w =>
  (tt, World (fs w) (streams w) (plans w)
             (alter (insert name value) m (modules w))).

Definition read_wisdom (filename : string) (m : Z) : IO unit :=
  bind (fopen_r filename) (fun wisdomfile =>
  bind (match wisdomfile with
        | Some f =>
            bind (fftwf_import_wisdom_from_file f) (fun status =>
            bind (fclose f) (fun _ => ret status))
        | None => ret 0
        end) (fun status =>
  PyModule_AddObject m "useWisdom" (PyBool_FromLong status))).
End Wisdom.

(** ** Sample values *)

Definition cx_of_Z (fmt : format) (a b : Z) : complex fmt :=
  Cx (of_Z fmt a) (of_Z fmt b).

(** [X = [1+2i, 3-1i]] and [Y = [2+0i, 0+1i]]. *)
Definition sample_X (fmt : format) : list (complex fmt) :=
  [cx_of_Z fmt 1 2; cx_of_Z fmt 3 (-1)].
Definition sample_Y (fmt : format) : list (complex fmt) :=
  [cx_of_Z fmt 2 0; cx_of_Z fmt 0 1].

(** A memory with [sample_X] at address 10 and [sample_Y] at address 20,
    and a memory with one cell, at address 0, for a result. *)
Definition sample_mem (fmt : format) : gmap Z (complex fmt) :=
  <[10 := cx_of_Z fmt 1 2]> (<[11 := cx_of_Z fmt 3 (-1)]>
  (<[20 := cx_of_Z fmt 2 0]> (<[21 := cx_of_Z fmt 0 1]> ∅))).
Definition sample_out (fmt : format) : gmap Z (complex fmt) :=
  <[0 := cx_of_Z fmt 7 7]> ∅.

(** A memory of [double]s, at the addresses 0, 1 and 2. *)
Definition sample_reals : gmap Z spec_float :=
  <[0 := of_Z binary64 1]> (<[1 := of_Z binary64 5]> (<[2 := of_Z binary64 3]> ∅)).

(** The [double] [2^600], and the sample [2^600 + 2^600 i]. *)
Definition d_2p600 : spec_float := S754_finite false 4503599627370496 548.
Definition huge : Complex64 := Cx d_2p600 d_2p600.

(** [NPY_PI] as a [float]. *)
Definition f_pi : spec_float := fconv binary32 NPY_PI.

(** A libm that is defined on the arguments [+-0] and pi only, where it
    returns the correctly rounded values: [cos(+-0) = 1],
    [cos(NPY_PI) = -1] (also for the [float] pi) and [sin(+-0) = +-0].
    Elsewhere it returns NaN. *)
Definition libm_exact : Libm :=
  {| sin := fun x => if feq x pzero then x else S754_nan;
     cos := fun x =>
       if feq x pzero then d_1_0
       else if feq x NPY_PI then fneg d_1_0 else S754_nan;
     cos_float := fun x =>
       if feq x pzero then d_1_0
       else if feq x f_pi then fneg d_1_0 else S754_nan |}.

(** An FFTW whose plans are the wisdom imported so far, and that
    refuses an empty file; a world with one wisdom file, no open stream,
    no plans and one module, at address 1, without attributes. *)
Definition sample_fftw : Fftw :=
  {| planner := list string;
     import_wisdom := fun contents p =>
       if String.eqb contents "" then (0, p) else (1, contents :: p) |}.

Definition sample_world : world (F := sample_fftw) :=
  World (F := sample_fftw)
        (<["wisdom.dat" := "(fftw-3.3.8 fftwf_wisdom)"]> ∅) ∅ [] (<[1 := ∅]> ∅).

(** ** Predicates and values for the further properties *)

(** A zero of either sign. *)
Definition is_zero (x : spec_float) : bool :=
  match x with S754_zero _ => true | _ => false end.

(** A value of the format [fmt]: any zero, infinity or NaN, or a finite
    number whose significand and exponent are canonical for [fmt]. *)
Definition valid (fmt : format) (x : spec_float) : bool :=
  valid_binary (prec fmt) (emax fmt) x.

(** [1.0] in the format [fmt]. *)
Definition one (fmt : format) : spec_float := of_Z fmt 1.

(** A complex zero, of any signs, and a complex number with finite
    parts. *)
Definition cx_is_zero {fmt : format} (z : complex fmt) : bool :=
  is_zero (real z) && is_zero (imag z).
Definition cx_is_finite {fmt : format} (z : complex fmt) : bool :=
  is_finite (real z) && is_finite (imag z).

(** The [double] [2^-27], and a libm that is defined on the arguments
    below it in magnitude only, where it returns the correctly rounded
    values [sin(x) = x] and [cos(x) = 1].  Elsewhere it returns NaN. *)
Definition d_2m27 : spec_float := S754_finite false 4503599627370496 (-79).

Definition libm_tiny : Libm :=
  let tiny x := SFltb (SFabs x) d_2m27 in
  {| sin := fun x => if tiny x then x else S754_nan;
     cos := fun x => if tiny x then d_1_0 else S754_nan;
     cos_float := fun x => if tiny x then d_1_0 else S754_nan |}.

(** The [double] and the [float] [2^-30]. *)
Definition d_2m30 : spec_float := S754_finite false 4503599627370496 (-82).
Definition f_2m30 : spec_float := S754_finite false 8388608 (-53).

(** * Properties *)

(** ** The loops of [blas.h], one iteration at a time *)

Section KernelFacts.
Context {IType : Type} {E : Elem IType}.

Lemma scal_loop_exit N alpha incX i X (h : gmap Z IType) :
  N <= i -> scal_loop N alpha incX i X h = Some h.
Proof.
  intros Hi. rewrite scal_loop_equation_1.
  destruct (decide (i < N)) as [Hlt|Hge]; [lia | reflexivity].
Qed.

Lemma scal_loop_step N alpha incX i X (h : gmap Z IType) x :
  i < N -> h !! X = Some x ->
  scal_loop N alpha incX i X h =
  scal_loop N alpha incX (i + 1) (X + incX) (<[X := mul x alpha]> h).
Proof.
  intros Hi Hx. rewrite scal_loop_equation_1.
  destruct (decide (i < N)) as [Hlt|Hge]; [| lia].
  cbn. rewrite Hx. reflexivity.
Qed.

(** The invariant of the loop of [blas_scal]: with [N - i] iterations
    to go from pointer [X], the cells [X + j*incX] are scaled and the
    others are kept. *)
Lemma scal_loop_inv (k : nat) :
  forall N alpha incX i X (h : gmap Z IType),
    Z.to_nat (N - i) = k -> incX <> 0 ->
    (forall j, 0 <= j < N - i -> is_Some (h !! (X + j * incX))) ->
    exists h',
      scal_loop N alpha incX i X h = Some h' /\
      (forall j, 0 <= j < N - i ->
         h' !! (X + j * incX) = (fun x => mul x alpha) <$> h !! (X + j * incX)) /\
      (forall a, (forall j, 0 <= j < N - i -> a <> X + j * incX) ->
         h' !! a = h !! a) /\
      dom h' = dom h.
Proof.
  induction k as [|k IH]; intros N alpha incX i X h Hk Hinc Hall.
  - exists h. split; [apply scal_loop_exit; lia|]. split; [intros; lia | done].
  - destruct (Hall 0 ltac:(lia)) as [x Hx].
    replace (X + 0 * incX) with X in Hx by lia.
    rewrite (scal_loop_step _ _ _ _ _ _ x) by (lia || done).
    destruct (IH N alpha incX (i + 1) (X + incX) (<[X := mul x alpha]> h))
      as (h' & Hrun & Hscaled & Hframe & Hdom); [lia | done | |].
    { intros j Hj. rewrite lookup_insert_ne by nia.
      replace (X + incX + j * incX) with (X + (j + 1) * incX) by lia.
      apply Hall. lia. }
    exists h'. split; [done|].
    split; [|split; [|by rewrite Hdom, dom_insert_lookup_L]].
    + intros j Hj. destruct (decide (j = 0)) as [->|Hne].
      * replace (X + 0 * incX) with X by lia.
        rewrite Hframe by (intros; nia).
        rewrite lookup_insert_eq, Hx. done.
      * replace (X + j * incX) with (X + incX + (j - 1) * incX) by lia.
        rewrite Hscaled by lia. rewrite lookup_insert_ne by nia. done.
    + intros a Ha. rewrite Hframe.
      * apply lookup_insert_ne. specialize (Ha 0 ltac:(lia)). lia.
      * intros j Hj. specialize (Ha (j + 1) ltac:(lia)). lia.
Qed.

Context {C : Conj IType} {OType : Type} {A : Accum IType OType}.

Lemma dotc_loop_exit N incX incY (h : gmap Z IType) i X Y (accum : OType) :
  N <= i -> dotc_loop N incX incY h i X Y accum = Some accum.
Proof.
  intros Hi. rewrite dotc_loop_equation_1.
  destruct (decide (i < N)) as [Hlt|Hge]; [lia | reflexivity].
Qed.

Lemma dotc_loop_step N incX incY (h : gmap Z IType) i X Y (accum : OType) :
  i < N ->
  dotc_loop N incX incY h i X Y accum =
  match h !! X, h !! Y with
  | Some x, Some y =>
      dotc_loop N incX incY h (i + 1) (X + incX) (Y + incY)
                (add_assign accum (mul (conj x) y))
  | _, _ => None
  end.
Proof.
  intros Hi. rewrite dotc_loop_equation_1.
  destruct (decide (i < N)) as [Hlt|Hge]; [| lia].
  cbn. destruct (h !! X); cbn; [destruct (h !! Y)|]; reflexivity.
Qed.

Lemma seqZ_head (m n : Z) : 0 < n -> seqZ m n = m :: seqZ (m + 1) (n - 1).
Proof.
  intros Hn. rewrite (seqZ_cons m n) by done.
  reflexivity.
Qed.

Lemma dotc_loop_inv (k : nat) :
  forall N incX incY (h : gmap Z IType) i X Y (accum : OType) xs ys,
    Z.to_nat (N - i) = k ->
    (forall j, i <= j < N -> h !! (X + (j - i) * incX) = Some (xs j)) ->
    (forall j, i <= j < N -> h !! (Y + (j - i) * incY) = Some (ys j)) ->
    dotc_loop N incX incY h i X Y accum =
    Some (foldl (dotc_term xs ys) accum (seqZ i (N - i))).
Proof.
  induction k as [|k IH]; intros N incX incY h i X Y accum xs ys Hk HX HY.
  - rewrite dotc_loop_exit by lia.
    replace (N - i) with (- Z.of_nat (Z.to_nat (i - N))) by lia.
    destruct (Z.to_nat (i - N)); [done|]. by rewrite seqZ_nil by lia. 
  - rewrite dotc_loop_step by lia.
    pose proof (HX i ltac:(lia)) as Hx. pose proof (HY i ltac:(lia)) as Hy.
    replace (X + (i - i) * incX) with X in Hx by lia.
    replace (Y + (i - i) * incY) with Y in Hy by lia.
    rewrite Hx, Hy, (seqZ_head i (N - i)) by lia. cbn [foldl].
    replace (N - i - 1) with (N - (i + 1)) by lia.
    apply IH; [lia | |]; intros j Hj.
    + rewrite <- HX by lia. f_equal. lia.
    + rewrite <- HY by lia. f_equal. lia.
Qed.
End KernelFacts.

(** ** Facts of IEEE arithmetic *)

Section FloatFacts.
Variable fmt : format.

Lemma iter_pos_invariant {T : Type} (P : T -> Prop) (f : T -> T) :
  (forall x, P x -> P (f x)) -> forall p x, P x -> P (SpecFloat.iter_pos f p x).
Proof.
  intros Hf p. induction p as [p IH|p IH|]; intros x Hx; cbn; auto.
Qed.

Lemma shr_1_nonneg mrs : 0 <= shr_m mrs -> 0 <= shr_m (shr_1 mrs).
Proof.
  destruct mrs as [m r s]. cbn. intros Hm.
  destruct m as [|[p|p|]|p]; cbn; lia.
Qed.

Lemma shr_nonneg mrs e n : 0 <= shr_m mrs -> 0 <= shr_m (fst (shr mrs e n)).
Proof.
  intros Hm. destruct n as [|p|p]; cbn; [done| |done].
  apply (iter_pos_invariant (fun r => 0 <= shr_m r)); [apply shr_1_nonneg | done].
Qed.

Lemma shr_record_of_loc_m m l : shr_m (shr_record_of_loc m l) = m.
Proof. destruct l as [|[]]; reflexivity. Qed.

Lemma shr_fexp_nonneg p e m ex l :
  0 <= m -> 0 <= shr_m (fst (shr_fexp p e m ex l)).
Proof.
  intros Hm. unfold shr_fexp. apply shr_nonneg.
  by rewrite shr_record_of_loc_m.
Qed.

Lemma round_nearest_even_nonneg m l : 0 <= m -> 0 <= round_nearest_even m l.
Proof.
  intros Hm. unfold round_nearest_even.
  destruct l as [|[]]; [done| |done|lia]. destruct (Z.even m); lia.
Qed.

(** Rounding keeps the sign it is given, whatever comes out. *)
Lemma binary_round_aux_sign p e s m ex l :
  0 <= m ->
  is_nan (binary_round_aux p e s m ex l) = false /\
  sign_bit (binary_round_aux p e s m ex l) = s.
Proof.
  intros Hm. unfold binary_round_aux.
  pose proof (shr_fexp_nonneg p e m ex l Hm) as H1.
  destruct (shr_fexp p e m ex l) as [mrs' e']. cbn [fst] in H1.
  pose proof (shr_fexp_nonneg p e _ e' loc_Exact
                (round_nearest_even_nonneg _ (loc_of_shr_record mrs') H1)) as H2.
  destruct (shr_fexp p e _ e' loc_Exact) as [mrs'' e'']. cbn [fst] in H2.
  destruct (shr_m mrs'') as [|q|q]; [done| |lia].
  by destruct (e'' <=? e - p).
Qed.

Lemma binary_round_aux_opp p e s m ex l :
  binary_round_aux p e (negb s) m ex l = SFopp (binary_round_aux p e s m ex l).
Proof.
  unfold binary_round_aux.
  destruct (shr_fexp p e m ex l) as [mrs' e'].
  destruct (shr_fexp p e _ e' loc_Exact) as [mrs'' e''].
  destruct (shr_m mrs'') as [|q|q]; [done| |done].
  by destruct (e'' <=? e - p).
Qed.

Lemma fmul_comm x y : fmul fmt x y = fmul fmt y x.
Proof.
  unfold fmul.
  destruct x as [sx|sx| |sx mx ex], y as [sy|sy| |sy my ey]; cbn;
    try rewrite (xorb_comm sx sy); try reflexivity.
  by rewrite (Pos.mul_comm mx my), (Z.add_comm ex ey).
Qed.

Lemma fmul_fneg_l x y : fmul fmt (fneg x) y = fneg (fmul fmt x y).
Proof.
  unfold fmul, fneg.
  destruct x as [sx|sx| |sx mx ex], y as [sy|sy| |sy my ey]; cbn;
    try rewrite <- negb_xorb_l; try reflexivity.
  apply binary_round_aux_opp.
Qed.

Lemma fsub_fneg x y : fsub fmt x (fneg y) = fadd fmt x y.
Proof.
  unfold fsub, fadd, fneg.
  destruct x as [sx|sx| |sx mx ex], y as [sy|sy| |sy my ey]; cbn;
    try rewrite negb_involutive; try reflexivity;
    by destruct sx, sy.
Qed.

Lemma fadd_fneg_finite x : is_finite x = true -> fadd fmt x (fneg x) = pzero.
Proof.
  unfold fadd, fneg.
  destruct x as [sx|sx| |sx mx ex]; cbn; try done.
  - by destruct sx.
  - intros _. rewrite Z.min_id. unfold shl_align. rewrite Z.sub_diag. cbn.
    replace (cond_Zopp sx (Z.pos mx) + cond_Zopp (negb sx) (Z.pos mx)) with 0
      by (destruct sx; cbn; lia).
    reflexivity.
Qed.
End FloatFacts.

Section FloatSigns.
Variable fmt : format.

Lemma nonneg_of_sign r : is_nan r = false -> sign_bit r = false -> nonneg r = true.
Proof. destruct r as [s|s| |s m e]; cbn; congruence || (intros _ ->; done). Qed.

Lemma binary_round_aux_nonneg p e m ex l :
  0 <= m -> nonneg (binary_round_aux p e false m ex l) = true.
Proof.
  intros Hm. destruct (binary_round_aux_sign p e false m ex l Hm).
  by apply nonneg_of_sign.
Qed.

Lemma binary_round_nonneg p e m ex : nonneg (binary_round p e false m ex) = true.
Proof.
  unfold binary_round. destruct (shl_align _ _ _) as [mz ez].
  by apply binary_round_aux_nonneg.
Qed.

Lemma fmul_self_nan x : is_nan (fmul fmt x x) = is_nan x.
Proof.
  destruct x as [s|s| |s m e]; try reflexivity.
  exact (proj1 (binary_round_aux_sign _ _ (xorb s s) _ _ loc_Exact
                  (Pos2Z.is_nonneg (m * m)))).
Qed.

Lemma fmul_self_nonneg x : nonneg (fmul fmt x x) = negb (is_nan x).
Proof.
  destruct x as [s|s| |s m e]; try reflexivity; try (by destruct s).
  destruct s;
    exact (binary_round_aux_nonneg _ _ _ _ loc_Exact (Pos2Z.is_nonneg (m * m))).
Qed.

Lemma fadd_nonneg x y :
  nonneg x = true -> nonneg y = true -> nonneg (fadd fmt x y) = true.
Proof.
  unfold fadd.
  destruct x as [sx|sx| |sx mx ex], y as [sy|sy| |sy my ey]; cbn;
    try done; try (by destruct sx, sy).
  destruct sx, sy; try done. intros _ _. cbn.
  apply binary_round_nonneg.
Qed.

Lemma fadd_nan_l y : fadd fmt S754_nan y = S754_nan.
Proof. reflexivity. Qed.

Lemma fadd_nan_r x : fadd fmt x S754_nan = S754_nan.
Proof. by destruct x. Qed.

Lemma flt_zero_nonneg x : nonneg x = true -> SFltb x pzero = false.
Proof. destruct x as [s|s| |s m e]; cbn; try done; by destruct s. Qed.
End FloatSigns.

Section Abs2Facts.
Context {fmt : format}.

Lemma abs2_nonneg (z : complex fmt) :
  nonneg (abs2 z) = negb (is_nan (real z) || is_nan (imag z)).
Proof.
  unfold abs2. destruct (is_nan (real z)) eqn:Hre.
  { destruct (real z); try done. }
  destruct (is_nan (imag z)) eqn:Him.
  { destruct (imag z); try done. by rewrite fadd_nan_r. }
  apply fadd_nonneg; rewrite fmul_self_nonneg.
  - by rewrite Hre.
  - by rewrite Him.
Qed.

Lemma nonneg_not_nan x : nonneg x = true -> is_nan x = false.
Proof. by destruct x. Qed.

Lemma abs2_nan (z : complex fmt) :
  is_nan (abs2 z) = is_nan (real z) || is_nan (imag z).
Proof.
  pose proof (abs2_nonneg z) as H.
  destruct (is_nan (real z)) eqn:Hre.
  { unfold abs2. destruct (real z); done. }
  destruct (is_nan (imag z)) eqn:Him.
  { unfold abs2. destruct (imag z); try done. by rewrite fadd_nan_r. }
  by apply nonneg_not_nan.
Qed.

Lemma abs2_not_lt_zero (z : complex fmt) : SFltb (abs2 z) pzero = false.
Proof.
  pose proof (abs2_nonneg z) as H. pose proof (abs2_nan z) as Hn.
  destruct (is_nan (real z) || is_nan (imag z)).
  - by destruct (abs2 z).
  - by apply flt_zero_nonneg.
Qed.
End Abs2Facts.

(** ** The conjugate product of a sample with itself *)

Section SelfProduct.
Context {rt : ComplexRuntime} {fmt : format}.

Lemma fadd_fneg_not_finite x :
  is_finite x = false -> fadd fmt x (fneg x) = S754_nan.
Proof. by destruct x as [s|[]| |s m e]. Qed.

(** For a sample without a NaN part, [conj(z) * z] has the real part
    [abs2(z)]; its imaginary part is [+0] when [re(z) * im(z)] is
    finite, and a NaN when it is not. *)
Lemma cmul_cconj_self (z : complex fmt) :
  is_nan (real z) = false -> is_nan (imag z) = false ->
  cmul (cconj z) z =
  Cx (abs2 z) (if is_finite (fmul fmt (real z) (imag z)) then pzero else S754_nan).
Proof.
  intros Hre Him. unfold cmul, cconj. cbn [real imag].
  rewrite fmul_fneg_l, fsub_fneg, fmul_fneg_l.
  rewrite (fmul_comm fmt (imag z) (real z)). fold (abs2 z).
  rewrite (abs2_nan z), Hre, Him. cbn [orb andb].
  destruct (is_finite (fmul fmt (real z) (imag z))) eqn:Hfin.
  - by rewrite fadd_fneg_finite.
  - by rewrite fadd_fneg_not_finite.
Qed.

Lemma cadd_flagged (acc : spec_float) (z : complex fmt) (ok fin : bool) :
  cadd (@Cx fmt acc (if ok then pzero else S754_nan))
       (Cx (abs2 z) (if fin then pzero else S754_nan)) =
  Cx (fadd fmt acc (abs2 z)) (if ok && fin then pzero else S754_nan).
Proof. by destruct ok, fin. Qed.

Lemma sum_abs2_snoc (zs : list (complex fmt)) z :
  sum_abs2 (zs ++ [z]) = fadd fmt (sum_abs2 zs) (abs2 z).
Proof. unfold sum_abs2. by rewrite foldl_snoc. Qed.

Lemma sum_abs2_nonneg (zs : list (complex fmt)) :
  Forall (fun z => is_nan (real z) = false /\ is_nan (imag z) = false) zs ->
  nonneg (sum_abs2 zs) = true.
Proof.
  induction zs as [|z zs IH] using rev_ind; [done|].
  rewrite Forall_app, Forall_singleton. intros [Hzs [Hre Him]].
  rewrite sum_abs2_snoc. apply fadd_nonneg; [by apply IH|].
  by rewrite abs2_nonneg, Hre, Him.
Qed.
End SelfProduct.

(** ** [blas_dotc_sub] *)

Section DotcFacts.
Context {IType : Type} {E : Elem IType} {C : Conj IType}
  {OType : Type} {A : Accum IType OType}.



Lemma store_allocated (ho : gmap Z OType) p v :
  is_Some (ho !! p) -> store ho p v = Some (<[p := v]> ho).
Proof. intros [v0 Hv0]. unfold store. by rewrite Hv0. Qed.

Lemma dotc_loop_sum N X incX Y incY (h : gmap Z IType) xs ys :
  (forall i, 0 <= i < N -> h !! (X + i * incX) = Some (xs i)) ->
  (forall i, 0 <= i < N -> h !! (Y + i * incY) = Some (ys i)) ->
  dotc_loop N incX incY h 0 X Y zero = Some (dotc_sum xs ys N).
Proof.
  intros HX HY.
  rewrite (dotc_loop_inv (Z.to_nat (N - 0)) N incX incY h 0 X Y zero xs ys);
    [by rewrite Z.sub_0_r | done | |].
  - intros j Hj. rewrite Z.sub_0_r. apply HX. lia.
  - intros j Hj. rewrite Z.sub_0_r. apply HY. lia.
Qed.

(** Two runs of the loop that load the same elements in the same
    order return the same result, whatever the strides and the places
    the elements are loaded from. *)
Lemma dotc_loop_ext (k : nat) :
  forall N incX incY incX' incY' (h h' : gmap Z IType) i X Y X' Y' (accum : OType),
    Z.to_nat (N - i) = k ->
    (forall j, 0 <= j < N - i -> h !! (X + j * incX) = h' !! (X' + j * incX')) ->
    (forall j, 0 <= j < N - i -> h !! (Y + j * incY) = h' !! (Y' + j * incY')) ->
    dotc_loop N incX incY h i X Y accum = dotc_loop N incX' incY' h' i X' Y' accum.
Proof.
  induction k as [|k IH];
    intros N incX incY incX' incY' h h' i X Y X' Y' accum Hk HX HY.
  - by rewrite !dotc_loop_exit by lia.
  - rewrite !dotc_loop_step by lia.
    pose proof (HX 0 ltac:(lia)) as Hx. pose proof (HY 0 ltac:(lia)) as Hy.
    rewrite !Z.mul_0_l, !Z.add_0_r in Hx, Hy. rewrite <- Hx, <- Hy.
    destruct (h !! X) as [x|]; [|done]. destruct (h !! Y) as [y|]; [|done].
    apply IH; [lia | |]; intros j Hj.
    + specialize (HX (j + 1) ltac:(lia)).
      by replace (X + incX + j * incX) with (X + (j + 1) * incX) by lia;
         replace (X' + incX' + j * incX') with (X' + (j + 1) * incX') by lia.
    + specialize (HY (j + 1) ltac:(lia)).
      by replace (Y + incY + j * incY) with (Y + (j + 1) * incY) by lia;
         replace (Y' + incY' + j * incY') with (Y' + (j + 1) * incY') by lia.
Qed.

Lemma blas_dotc_sub_run N X incX Y incY dotc (h : gmap Z IType)
    (ho : gmap Z OType) xs ys :
  (forall i, 0 <= i < N -> h !! (X + i * incX) = Some (xs i)) ->
  (forall i, 0 <= i < N -> h !! (Y + i * incY) = Some (ys i)) ->
  is_Some (ho !! dotc) ->
  blas_dotc_sub N X incX Y incY dotc h ho = Some (<[dotc := dotc_sum xs ys N]> ho).
Proof.
  intros HX HY Hout. unfold blas_dotc_sub.
  rewrite (dotc_loop_sum N X incX Y incY h xs ys HX HY).
  by apply store_allocated.
Qed.

Lemma array_at_lookup (h : gmap Z IType) p (l : list IType) (j : Z) :
  array_at h p l -> 0 <= j < Z.of_nat (length l) ->
  h !! (p + j) = l !! Z.to_nat j.
Proof.
  intros Harr Hj.
  destruct (lookup_lt_is_Some_2 l (Z.to_nat j) ltac:(lia)) as [x Hx].
  rewrite Hx. rewrite <- (Harr _ _ Hx). f_equal. lia.
Qed.
End DotcFacts.



Lemma sample_mem_X (fmt : format) (i : Z) :
  0 <= i < 2 ->
  sample_mem fmt !! (10 + i * 1) =
  Some (if decide (i = 0) then cx_of_Z fmt 1 2 else cx_of_Z fmt 3 (-1)).
Proof.
  intros Hi. assert (i = 0 \/ i = 1) as [-> | ->] by lia; reflexivity.
Defined.

Lemma sample_mem_Y (fmt : format) (i : Z) :
  0 <= i < 2 ->
  sample_mem fmt !! (20 + i * 1) =
  Some (if decide (i = 0) then cx_of_Z fmt 2 0 else cx_of_Z fmt 0 1).
Proof.
  intros Hi. assert (i = 0 \/ i = 1) as [-> | ->] by lia; reflexivity.
Defined.


Lemma array_at_2 {IType : Type} (h : gmap Z IType) (p : Z) (a b : IType) (i : Z) :
  array_at h p [a; b] -> 0 <= i < 2 ->
  h !! (p + i * 1) = Some (if decide (i = 0) then a else b).
Proof.
  intros Harr Hi. assert (i = 0 \/ i = 1) as [-> | ->] by lia.
  - exact (Harr 0%nat a eq_refl).
  - exact (Harr 1%nat b eq_refl).
Qed.

(** C2: with [X = [1+2i, 3-1i]], [Y = [2+0i, 0+1i]], [N = 2] and unit
    strides, [blas_dotc_sub] stores exactly [1 - i], in [float] and in
    [double] arithmetic alike. *)
Theorem blas_dotc_sub_scenario {rt : ComplexRuntime} (fmt : format)
    (X Y dotc : Z) (h ho : gmap Z (complex fmt)) :
  fmt = binary32 \/ fmt = binary64 ->
  array_at h X (sample_X fmt) ->
  array_at h Y (sample_Y fmt) ->
  is_Some (ho !! dotc) ->
  blas_dotc_sub 2 X 1 Y 1 dotc h ho = Some (<[dotc := cx_of_Z fmt 1 (-1)]> ho).
Proof.
  intros Hfmt HX HY Hout.
  rewrite (blas_dotc_sub_run 2 X 1 Y 1 dotc h ho
             (fun i => if decide (i = 0) then cx_of_Z fmt 1 2 else cx_of_Z fmt 3 (-1))
             (fun i => if decide (i = 0) then cx_of_Z fmt 2 0 else cx_of_Z fmt 0 1));
    [| intros i Hi; by apply array_at_2 | intros i Hi; by apply array_at_2 | done].
  do 2 f_equal. destruct Hfmt as [-> | ->]; vm_compute; reflexivity.
Qed.

Lemma sample_mem_arrays (fmt : format) :
  array_at (sample_mem fmt) 10 (sample_X fmt) /\
  array_at (sample_mem fmt) 20 (sample_Y fmt).
Proof.
  split; intros [|[|k]] x Hx; try discriminate Hx;
    injection Hx as <-; reflexivity.
Defined.

Lemma blas_dotc_sub_scenario_witness :
  blas_dotc_sub (E := complex_elem (rt := limited_range) binary32)
    2 10 1 20 1 0 (sample_mem binary32) (sample_out binary32) =
  Some (<[0 := cx_of_Z binary32 1 (-1)]> (sample_out binary32)).
Proof.
  apply (blas_dotc_sub_scenario (rt := limited_range) binary32 10 20 0).
  - left. reflexivity.
  - apply sample_mem_arrays.
  - apply sample_mem_arrays.
  - exists (cx_of_Z binary32 7 7). reflexivity.
Defined.

Lemma reversed_loads {IType : Type} (N X X' : Z) (h h' : gmap Z IType)
    (xs : list IType) (j : Z) :
  Z.of_nat (length xs) = N ->
  array_at h X xs ->
  array_at h' X' (reverse xs) ->
  0 <= j < N ->
  h !! (X + (N - 1) + j * -1) = h' !! (X' + j * 1).
Proof.
  intros Hlen HX HX' Hj.
  replace (X + (N - 1) + j * -1) with (X + (N - 1 - j)) by lia.
  replace (X' + j * 1) with (X' + j) by lia.
  rewrite (array_at_lookup h X xs) by (done || lia).
  rewrite (array_at_lookup h' X' (reverse xs)) by (rewrite ?length_reverse; done || lia).
  rewrite reverse_lookup by lia. f_equal. lia.
Qed.

(** C4: a call that walks [X] backwards (stride [-1], from the last
    element) returns what the forward call returns on the reversed
    sequence: element [N-1-i] of [X] meets element [i] of [Y] either
    way, in the same order.  The same holds when [Y] is walked backwards
    too and the forward call is given both sequences reversed. *)
Theorem blas_dotc_sub_reversed {IType : Type} {E : Elem IType} {C : Conj IType}
    {OType : Type} {A : Accum IType OType}
    (N X X' Y Y' incY dotc : Z) (h h' : gmap Z IType) (ho : gmap Z OType)
    (xs ys : list IType) :
  Z.of_nat (length xs) = N ->
  array_at h X xs ->
  array_at h' X' (reverse xs) ->
  ((forall i, 0 <= i < N -> h' !! (Y + i * incY) = h !! (Y + i * incY)) ->
   blas_dotc_sub N (X + (N - 1)) (-1) Y incY dotc h ho =
   blas_dotc_sub N X' 1 Y incY dotc h' ho) /\
  (Z.of_nat (length ys) = N -> array_at h Y ys -> array_at h' Y' (reverse ys) ->
   blas_dotc_sub N (X + (N - 1)) (-1) (Y + (N - 1)) (-1) dotc h ho =
   blas_dotc_sub N X' 1 Y' 1 dotc h' ho).
Proof.
  intros Hlen HX HX'. unfold blas_dotc_sub. split.
  - intros HY.
    rewrite (dotc_loop_ext (Z.to_nat (N - 0)) N (-1) incY 1 incY h h' 0
               (X + (N - 1)) Y X' Y zero); [done | done | |].
    + intros j Hj. apply (reversed_loads N X X' h h' xs); (done || lia).
    + intros j Hj. symmetry. apply HY. lia.
  - intros Hlen' HY HY'.
    rewrite (dotc_loop_ext (Z.to_nat (N - 0)) N (-1) (-1) 1 1 h h' 0
               (X + (N - 1)) (Y + (N - 1)) X' Y' zero); [done | done | |].
    + intros j Hj. apply (reversed_loads N X X' h h' xs); (done || lia).
    + intros j Hj. apply (reversed_loads N Y Y' h h' ys); (done || lia).
Qed.

Lemma sample_mem_reversed (fmt : format) :
  array_at (<[10 := cx_of_Z fmt 3 (-1)]> (<[11 := cx_of_Z fmt 1 2]> (sample_mem fmt)))
           10 (reverse (sample_X fmt)).
Proof.
  intros [|[|k]] x Hx; try discriminate Hx; injection Hx as <-; reflexivity.
Defined.

Lemma blas_dotc_sub_reversed_witness :
  blas_dotc_sub (E := complex_elem (rt := limited_range) binary64)
    2 (10 + (2 - 1)) (-1) 20 1 0 (sample_mem binary64) (sample_out binary64) =
  blas_dotc_sub (E := complex_elem (rt := limited_range) binary64)
    2 10 1 20 1 0
    (<[10 := cx_of_Z binary64 3 (-1)]> (<[11 := cx_of_Z binary64 1 2]> (sample_mem binary64)))
    (sample_out binary64).
Proof.
  apply (blas_dotc_sub_reversed (E := complex_elem (rt := limited_range) binary64)
           2 10 10 20 20 1 0 _ _ _ (sample_X binary64) (sample_Y binary64)).
  - reflexivity.
  - apply sample_mem_arrays.
  - apply sample_mem_reversed.
  - intros i Hi. assert (i = 0 \/ i = 1) as [-> | ->] by lia; reflexivity.
Defined.

(** ** [blas_scal] *)

(** C5: for a count [N >= 0] and a stride other than zero, [blas_scal]
    replaces each of the [N] elements at [X + i*incX] by its product
    with [alpha] and leaves every other element, and the set of
    allocated elements, as they were; with [N = 0] the memory is
    unchanged. *)
Theorem blas_scal_frame {IType : Type} {E : Elem IType}
    (N : Z) (alpha : IType) (X incX : Z) (h : gmap Z IType) :
  0 <= N -> incX <> 0 ->
  (forall i, 0 <= i < N -> is_Some (h !! (X + i * incX))) ->
  exists h',
    blas_scal N alpha X incX h = Some h' /\
    (forall i, 0 <= i < N ->
       h' !! (X + i * incX) = (fun x => mul x alpha) <$> h !! (X + i * incX)) /\
    (forall a, (forall i, 0 <= i < N -> a <> X + i * incX) -> h' !! a = h !! a) /\
    dom h' = dom h /\
    (N = 0 -> h' = h).
Proof.
  intros HN Hinc Hall.
  destruct (scal_loop_inv (Z.to_nat (N - 0)) N alpha incX 0 X h)
    as (h' & Hrun & Hscaled & Hframe & Hdom); [done | done | | ].
  { intros j Hj. apply Hall. lia. }
  exists h'. split; [exact Hrun|].
  split; [intros i Hi; apply Hscaled; lia|].
  split; [intros a Ha; apply Hframe; intros j Hj; apply Ha; lia|].
  split; [exact Hdom|].
  intros ->. unfold blas_scal in Hrun. rewrite scal_loop_exit in Hrun by lia.
    congruence.
Qed.

Lemma blas_scal_frame_witness :
  exists h',
    blas_scal (E := real_elem binary64) 2 (of_Z binary64 2) 0 2 sample_reals = Some h' /\
    h' !! 0 = Some (of_Z binary64 2) /\
    h' !! 2 = Some (of_Z binary64 6) /\
    h' !! 1 = Some (of_Z binary64 5).
Proof.
  destruct (blas_scal_frame (E := real_elem binary64) 2 (of_Z binary64 2) 0 2 sample_reals)
    as (h' & Hrun & Hscaled & Hframe & _).
  - lia.
  - lia.
  - intros i Hi. assert (i = 0 \/ i = 1) as [-> | ->] by lia; eexists; reflexivity.
  - exists h'. split; [exact Hrun|].
    split; [exact (Hscaled 0 ltac:(lia))|].
    split; [exact (Hscaled 1 ltac:(lia))|].
    apply (Hframe 1). intros i Hi. lia.
Defined.

(** ** Counts that are not positive *)

(** C10: with a count [N <= 0], negative ones included, both kernels do
    what they do with [N = 0].  [blas_dotc_sub] loads nothing (it runs
    the same on a memory without any element) and stores the zero of the
    output type; [blas_scal] leaves the memory as it is. *)
Theorem nonpositive_count {IType : Type} {E : Elem IType} {C : Conj IType}
    {OType : Type} {A : Accum IType OType}
    (N X incX Y incY dotc : Z) (alpha : IType)
    (h : gmap Z IType) (ho : gmap Z OType) :
  N <= 0 ->
  blas_dotc_sub N X incX Y incY dotc h ho = store ho dotc zero /\
  blas_dotc_sub N X incX Y incY dotc (∅ : gmap Z IType) ho = store ho dotc zero /\
  (is_Some (ho !! dotc) ->
   blas_dotc_sub N X incX Y incY dotc h ho = Some (<[dotc := zero]> ho)) /\
  blas_dotc_sub N X incX Y incY dotc h ho = blas_dotc_sub 0 X incX Y incY dotc h ho /\
  blas_scal N alpha X incX h = Some h /\
  blas_scal N alpha X incX h = blas_scal 0 alpha X incX h.
Proof.
  intros HN. unfold blas_dotc_sub, blas_scal.
  rewrite !dotc_loop_exit, !scal_loop_exit by lia.
  repeat split. intros Hout. by apply store_allocated.
Qed.

Lemma nonpositive_count_witness :
  -3 <= 0 /\
  blas_dotc_sub (E := complex_elem (rt := limited_range) binary64)
    (-3) 10 1 20 1 0 ∅ (sample_out binary64) =
  Some (<[0 := czero]> (sample_out binary64)) /\
  blas_scal (E := complex_elem (rt := limited_range) binary64)
    (-3) (cx_of_Z binary64 2 0) 10 1 (sample_mem binary64) =
  Some (sample_mem binary64).
Proof.
  destruct (nonpositive_count (E := complex_elem (rt := limited_range) binary64)
              (-3) 10 1 20 1 0 czero ∅ (sample_out binary64))
    as (_ & _ & Hc & _); [lia|].
  destruct (nonpositive_count (E := complex_elem (rt := limited_range) binary64)
              (-3) 10 1 20 1 0 (cx_of_Z binary64 2 0)
              (sample_mem binary64) (sample_out binary64))
    as (_ & _ & _ & _ & Hs & _); [lia|].
  split; [lia|]. split; [|exact Hs].
  apply Hc. eexists; reflexivity.
Defined.

(** ** The self conjugate dot product *)

Section SelfDot.
Context {rt : ComplexRuntime} {fmt : format}.

Lemma array_at_cons (h : gmap Z (complex fmt)) p z zs :
  array_at h p (z :: zs) -> h !! p = Some z /\ array_at h (p + 1) zs.
Proof.
  intros Harr. split.
  - rewrite <- (Harr 0%nat z eq_refl). f_equal. lia.
  - intros k x Hx. rewrite <- (Harr (S k) x Hx). f_equal. lia.
Qed.

Lemma self_dotc_loop (zs : list (complex fmt)) :
  forall N (h : gmap Z (complex fmt)) i X acc (ok : bool),
    Z.of_nat (length zs) = N - i ->
    array_at h X zs ->
    Forall (fun z => is_nan (real z) = false /\ is_nan (imag z) = false) zs ->
    dotc_loop N 1 1 h i X X (@Cx fmt acc (if ok then pzero else S754_nan)) =
    Some (Cx (foldl (fun a z => fadd fmt a (abs2 z)) acc zs)
             (if ok && cross_finite zs then pzero else S754_nan)).
Proof.
  induction zs as [|z zs IH]; intros N h i X acc ok Hlen Harr Hnan.
  - rewrite dotc_loop_exit by (cbn in Hlen; lia). cbn. by rewrite andb_true_r.
  - apply array_at_cons in Harr as [Hz Harr].
    apply Forall_cons in Hnan as [[Hre Him] Hnan].
    rewrite dotc_loop_step by (cbn in Hlen; lia). rewrite Hz.
    cbn [add_assign mul conj complex_accum complex_elem complex_conj foldl].
    rewrite cmul_cconj_self, cadd_flagged by done.
    rewrite IH by (done || (cbn in Hlen; lia)).
    cbn [cross_finite forallb]. by rewrite andb_assoc.
Qed.
End SelfDot.

(** C3, as the code has it: for a complex vector [X] without a NaN
    part, the self conjugate dot product with unit strides has, as its
    real part, the sum of the [abs2] of the samples, added in order, and
    that sum is not negative.  Its imaginary part is [+0] when the
    product [re * im] of every sample is finite in the precision of the
    elements, and a NaN when one of them is not. *)
Theorem self_dotc_sum_abs2 {rt : ComplexRuntime} {fmt : format}
    (N X dotc : Z) (h ho : gmap Z (complex fmt)) (zs : list (complex fmt)) :
  Z.of_nat (length zs) = N ->
  array_at h X zs ->
  Forall (fun z => is_nan (real z) = false /\ is_nan (imag z) = false) zs ->
  is_Some (ho !! dotc) ->
  blas_dotc_sub N X 1 X 1 dotc h ho =
  Some (<[dotc := Cx (sum_abs2 zs)
                     (if cross_finite zs then pzero else S754_nan)]> ho) /\
  nonneg (sum_abs2 zs) = true.
Proof.
  intros Hlen Harr Hnan Hout. split.
  - unfold blas_dotc_sub.
    change (@zero _ _ (complex_accum fmt)) with (@Cx fmt pzero (if true then pzero else S754_nan)).
    rewrite (self_dotc_loop zs N h 0 X pzero true) by (done || lia).
    by apply store_allocated.
  - by apply sum_abs2_nonneg.
Qed.

Lemma self_dotc_sum_abs2_witness :
  blas_dotc_sub (E := complex_elem (rt := limited_range) binary64)
    2 10 1 10 1 0 (sample_mem binary64) (sample_out binary64) =
  Some (<[0 := cx_of_Z binary64 15 0]> (sample_out binary64)).
Proof.
  refine (eq_trans (proj1 (self_dotc_sum_abs2 (rt := limited_range)
            2 10 0 (sample_mem binary64) (sample_out binary64) (sample_X binary64)
            _ _ _ _)) _).
  - reflexivity.
  - apply sample_mem_arrays.
  - repeat constructor.
  - eexists; reflexivity.
  - vm_compute. reflexivity.
Defined.

(** The product [conj(z) * z] of the sample [2^600 + 2^600 i] has the
    real part [+inf] and a NaN for its imaginary part, with any runtime:
    no recovery applies, as the real part is not a NaN. *)
Lemma cmul_cconj_huge {rt : ComplexRuntime} :
  cmul (cconj huge) huge = Cx (S754_infinity false) S754_nan.
Proof. vm_compute. reflexivity. Qed.

(** C3, as stated, fails: the one sample [2^600 + 2^600 i] is finite,
    the sum of [abs2] is [+inf], and the self conjugate dot product has
    the real part [+inf] and a NaN for its imaginary part. *)
Lemma self_dotc_overflow :
  is_finite (real huge) = true /\ is_finite (imag huge) = true /\
  sum_abs2 [huge] = S754_infinity false /\
  blas_dotc_sub (E := complex_elem (rt := limited_range) binary64)
    1 0 1 0 1 0 (<[0 := huge]> ∅) (sample_out binary64) =
  Some (<[0 := Cx (S754_infinity false) S754_nan]> (sample_out binary64)).
Proof. repeat split; vm_compute; reflexivity. Qed.

(** ** Widening a [float] to [double] *)

Lemma digits2_pos_iter_xO (m k : positive) :
  Z.pos (digits2_pos (Pos.iter xO m k)) = Z.pos (digits2_pos m) + Z.pos k.
Proof.
  induction k as [|k IH] using Pos.peano_ind.
  - cbn. lia.
  - rewrite Pos.iter_succ. cbn [digits2_pos]. lia.
Qed.

(** A finite [float] other than zero widens to a finite [double] other
    than zero, of the same sign. *)
Lemma fconv_binary64_finite (s : bool) (m : positive) (e : Z) :
  valid_binary 24 128 (S754_finite s m e) = true ->
  exists m' e', fconv binary64 (S754_finite s m e) = S754_finite s m' e'.
Proof.
  cbn [valid_binary]. unfold bounded, canonical_mantissa, SpecFloat.fexp, emin.
  rewrite andb_true_iff, Z.eqb_eq, Z.leb_le. intros [Hcan Hmax].
  set (d := Z.pos (digits2_pos m)) in *.
  assert (0 < d) as Hd by (unfold d; lia).
  set (f := Z.max (d + e - 53) (3 - 1024 - 53)).
  assert (f < e) as Hfe by lia.
  destruct (e - f) as [|k|k] eqn:Hk; try lia.
  assert (f - e = Z.neg k) as Hneg by lia.
  exists (Pos.iter xO m k), f.
  assert (binary_round 53 1024 s m e = S754_finite s (Pos.iter xO m k) f) as Hround.
  { unfold binary_round, SpecFloat.fexp, emin. fold d. fold f.
    unfold shl_align. rewrite Hneg.
    unfold binary_round_aux, shr_fexp, SpecFloat.fexp, emin, Zdigits2.
    rewrite digits2_pos_iter_xO. fold d.
    replace (d + Z.pos k + f) with (d + e) by lia. fold f.
    rewrite Z.sub_diag. cbn [shr shr_record_of_loc fst snd shr_m
      loc_of_shr_record round_nearest_even Zdigits2].
    rewrite digits2_pos_iter_xO. fold d.
    replace (d + Z.pos k + f) with (d + e) by lia. fold f.
    rewrite Z.sub_diag. cbn [shr shr_record_of_loc shr_m].
    destruct (f <=? 1024 - 53) eqn:Hle; [done|]. apply Z.leb_gt in Hle. lia. }
  unfold fconv. cbn [prec emax binary64]. destruct s; exact Hround.
Qed.

Lemma feq_zero_fconv_binary64 (x : spec_float) :
  valid_binary 24 128 x = true ->
  feq (fconv binary64 x) pzero = feq x pzero.
Proof.
  intros Hx. destruct x as [s|s| |s m e]; try reflexivity.
  destruct (fconv_binary64_finite s m e Hx) as (m' & e' & ->).
  reflexivity.
Qed.

(** ** The literals *)

(** Each literal is the [double] nearest to its decimal. *)
Lemma literals_nearest :
  d_0_54 = S754_finite false 4863887597560136 (-53) /\
  nearest_double 4863887597560136 (-53) 54 2 = true /\
  d_0_46 = S754_finite false 8286623314361713 (-54) /\
  nearest_double 8286623314361713 (-54) 46 2 = true /\
  d_0_08 = S754_finite false 5764607523034235 (-56) /\
  nearest_double 5764607523034235 (-56) 8 2 = true /\
  NPY_PI = S754_finite false 7074237752028440 (-51) /\
  nearest_double 7074237752028440 (-51) 3141592653589793238462643383279502884 36 = true /\
  d_0_5 = fdiv binary64 (of_Z binary64 1) (of_Z binary64 2) /\
  d_1_0 = of_Z binary64 1 /\
  f_1_0 = of_Z binary32 1 /\ f_1_0 = fconv binary32 d_1_0.
Proof. repeat split; vm_compute; reflexivity. Qed.

(** ** [sinc] *)

(** C6: at both precisions [sinc(x)] is exactly [1.0] when [x == 0] and
    [sin(pi*x) / (pi*x)] for every other [x].  The two overloads use the
    one constant [NPY_PI], the [double] nearest to pi: the [float]
    overload evaluates the quotient in [double] on the widened argument
    and rounds the result to [float]. *)
Theorem sinc_spec {libm : Libm} (x : spec_float) :
  (feq x pzero = true -> F64.sinc x = d_1_0) /\
  (feq x pzero = false ->
   F64.sinc x = fdiv binary64 (sin (fmul binary64 NPY_PI x)) (fmul binary64 NPY_PI x)) /\
  (valid_binary 24 128 x = true -> feq x pzero = true -> F32.sinc x = f_1_0) /\
  (valid_binary 24 128 x = true -> feq x pzero = false ->
   F32.sinc x =
   fconv binary32
     (fdiv binary64 (sin (fmul binary64 NPY_PI (fconv binary64 x)))
                    (fmul binary64 NPY_PI (fconv binary64 x)))) /\
  F32.sinc x = fconv binary32 (F64.sinc (fconv binary64 x)) /\
  nearest_double 7074237752028440 (-51) 3141592653589793238462643383279502884 36 = true.
Proof.
  unfold F64.sinc, F32.sinc.
  rewrite !(fmul_comm binary64 _ NPY_PI).
  split; [by intros ->|]. split; [by intros ->|].
  split; [intros Hx; rewrite (feq_zero_fconv_binary64 x Hx); by intros ->|].
  split; [intros Hx; rewrite (feq_zero_fconv_binary64 x Hx); by intros ->|].
  split; [by destruct (feq (fconv binary64 x) pzero)|].
  vm_compute. reflexivity.
Qed.

Lemma sinc_spec_witness :
  F64.sinc (libm := libm_exact) nzero = d_1_0 /\
  F32.sinc (libm := libm_exact) nzero = f_1_0 /\
  F64.sinc (libm := libm_exact) d_1_0 =
  fdiv binary64 (sin (Libm := libm_exact) (fmul binary64 NPY_PI d_1_0)) (fmul binary64 NPY_PI d_1_0) /\
  F32.sinc (libm := libm_exact) f_1_0 =
  fconv binary32
    (fdiv binary64 (sin (Libm := libm_exact) (fmul binary64 NPY_PI (fconv binary64 f_1_0)))
                   (fmul binary64 NPY_PI (fconv binary64 f_1_0))).
Proof.
  split; [apply (sinc_spec (libm := libm_exact) nzero); reflexivity|].
  split; [apply (sinc_spec (libm := libm_exact) nzero); reflexivity|].
  split; [apply (sinc_spec (libm := libm_exact) d_1_0); reflexivity|].
  apply (sinc_spec (libm := libm_exact) f_1_0); reflexivity.
Defined.

(** ** [abs2] *)

(** C7: at either precision [abs2(z)] is the sum of the squares of the
    real and the imaginary part, each operation rounded in the precision
    of [z]; it is [+0] for a zero of any signs, is never below zero, and
    is a number that is not negative unless a part of [z] is a NaN.  No
    magnitude is taken on the way: for [1 + i] the result is exactly [2],
    which the square of the rounded square root of [2] is not. *)
Theorem abs2_spec (fmt : format) (z : complex fmt) :
  abs2 z = fadd fmt (fmul fmt (real z) (real z)) (fmul fmt (imag z) (imag z)) /\
  (forall s1 s2 : bool, abs2 (@Cx fmt (S754_zero s1) (S754_zero s2)) = pzero) /\
  SFltb (abs2 z) pzero = false /\
  nonneg (abs2 z) = negb (is_nan (real z) || is_nan (imag z)) /\
  abs2 (cx_of_Z binary64 1 1) = of_Z binary64 2 /\
  (let magnitude := SFsqrt 53 1024 (of_Z binary64 2) in
   feq (fmul binary64 magnitude magnitude) (of_Z binary64 2) = false).
Proof.
  split; [reflexivity|].
  split; [by intros [] []|].
  split; [apply abs2_not_lt_zero|].
  split; [apply abs2_nonneg|].
  split; vm_compute; reflexivity.
Qed.

(** ** [hanning] and [hamming] *)

(** C8, as the code has it: [hanning(x)] is [0.5 - 0.5*cos(x)] and
    [hamming(x)] is [0.54 - 0.46*cos(x)], evaluated in [double] and, in
    the [float] overloads, rounded to [float].  With a libm that returns
    [cos(0) = 1] and [cos(pi) = -1]: [hanning(0)] is [0.0], [hanning(pi)]
    and [hamming(pi)] are [1.0], and [hamming(0)] is the [double]
    [0.54 - 0.46], the one next above [0.08], which does not compare
    equal to [0.08]; the [float] [hamming(0)] is the [float] nearest to
    [0.08]. *)
Theorem window_values {libm : Libm} :
  cos pzero = d_1_0 -> cos NPY_PI = fneg d_1_0 ->
  cos_float pzero = d_1_0 -> cos_float f_pi = fneg d_1_0 ->
  (forall x, F64.hanning x = fsub binary64 d_0_5 (fmul binary64 d_0_5 (cos x))) /\
  (forall x, F64.hamming x = fsub binary64 d_0_54 (fmul binary64 d_0_46 (cos x))) /\
  (forall x, F32.hanning x =
             fconv binary32 (fsub binary64 d_0_5 (fmul binary64 d_0_5 (cos_float x)))) /\
  (forall x, F32.hamming x =
             fconv binary32 (fsub binary64 d_0_54 (fmul binary64 d_0_46 (cos_float x)))) /\
  F64.hanning pzero = pzero /\
  F64.hanning NPY_PI = d_1_0 /\
  F64.hamming NPY_PI = d_1_0 /\
  F64.hamming pzero = fsub binary64 d_0_54 d_0_46 /\
  F64.hamming pzero = SFsucc 53 1024 d_0_08 /\
  feq (F64.hamming pzero) d_0_08 = false /\
  F32.hanning pzero = pzero /\
  F32.hanning f_pi = f_1_0 /\
  F32.hamming f_pi = f_1_0 /\
  F32.hamming pzero = fconv binary32 d_0_08.
Proof.
  intros Hc0 Hcpi Hf0 Hfpi.
  unfold F64.hanning, F64.hamming, F32.hanning, F32.hamming.
  rewrite Hc0, Hcpi, Hf0, Hfpi.
  repeat split; vm_compute; reflexivity.
Qed.

Lemma window_values_witness :
  F64.hanning (libm := libm_exact) pzero = pzero /\
  F64.hamming (libm := libm_exact) pzero = SFsucc 53 1024 d_0_08.
Proof.
  destruct (window_values (libm := libm_exact))
    as (_ & _ & _ & _ & H0 & _ & _ & _ & H1 & _); try reflexivity.
  split; [exact H0 | exact H1].
Defined.

(** C8, as stated, fails at [double] precision: with [cos(0) = 1],
    [hamming(0)] does not compare equal to [0.08]. *)
Lemma hamming_zero_not_0_08 :
  cos (Libm := libm_exact) pzero = d_1_0 /\
  F64.hamming (libm := libm_exact) pzero = S754_finite false 5764607523034236 (-56) /\
  d_0_08 = S754_finite false 5764607523034235 (-56) /\
  feq (F64.hamming (libm := libm_exact) pzero) d_0_08 = false.
Proof. repeat split; vm_compute; reflexivity. Qed.

(** ** The wisdom loader *)

Section WisdomFacts.
Context {F : Fftw}.

Lemma fresh_stream_closed (w : world) :
  streams w !! fresh (dom (streams w)) = None.
Proof. apply not_elem_of_dom. apply is_fresh. Qed.
End WisdomFacts.

(** C9: when [fopen] fails, [read_wisdom] sets the attribute
    ["useWisdom"] of the module to [False] and changes nothing else: no
    stream is opened and FFTW is not called.  When it succeeds, the
    contents of that file go to FFTW's wisdom import, the stream is
    closed again whatever status the import returns (the open streams
    are those of before), and ["useWisdom"] becomes the truth value of
    that status. *)
Theorem read_wisdom_spec {F : Fftw} (filename : string) (m : Z) (w : world) :
  (fs w !! filename = None ->
   read_wisdom filename m w =
   (tt, World (fs w) (streams w) (plans w)
              (alter (insert "useWisdom" Py_False) m (modules w)))) /\
  (forall contents, fs w !! filename = Some contents ->
   read_wisdom filename m w =
   (tt, World (fs w) (streams w) (snd (import_wisdom contents (plans w)))
              (alter (insert "useWisdom"
                        (PyBool_FromLong (fst (import_wisdom contents (plans w)))))
                     m (modules w)))) /\
  (forall status, PyBool_FromLong status = Py_True <-> status <> 0) /\
  (forall attrs, modules w !! m = Some attrs ->
   exists flag,
     modules (snd (read_wisdom filename m w)) !! m = Some (<["useWisdom" := flag]> attrs)).
Proof.
  assert (fs w !! filename = None ->
          read_wisdom filename m w =
          (tt, World (fs w) (streams w) (plans w)
                     (alter (insert "useWisdom" Py_False) m (modules w)))) as Hfail.
  { intros Hopen. unfold read_wisdom, bind, fopen_r. rewrite Hopen. reflexivity. }
  assert (forall contents, fs w !! filename = Some contents ->
          read_wisdom filename m w =
          (tt, World (fs w) (streams w) (snd (import_wisdom contents (plans w)))
                     (alter (insert "useWisdom"
                               (PyBool_FromLong (fst (import_wisdom contents (plans w)))))
                            m (modules w)))) as Hopened.
  { intros contents Hopen.
    unfold read_wisdom, bind, fopen_r, fftwf_import_wisdom_from_file. rewrite Hopen.
    cbn [streams fs plans modules]. rewrite lookup_insert_eq.
    destruct (import_wisdom contents (plans w)) as [status p].
    cbn. rewrite delete_insert_id by apply fresh_stream_closed. reflexivity. }
  split; [exact Hfail|]. split; [exact Hopened|]. split.
  - intros status. unfold PyBool_FromLong. by destruct (decide (status = 0)).
  - intros attrs Hm.
    destruct (fs w !! filename) as [contents|] eqn:Hopen.
    + exists (PyBool_FromLong (fst (import_wisdom contents (plans w)))).
      rewrite (Hopened contents eq_refl). cbn [snd modules].
      by rewrite lookup_alter_eq, Hm.
    + exists Py_False. rewrite (Hfail eq_refl). cbn [snd modules].
      by rewrite lookup_alter_eq, Hm.
Qed.

Lemma read_wisdom_spec_witness :
  read_wisdom (F := sample_fftw) "missing.dat" 1 sample_world =
  (tt, World (F := sample_fftw) (fs sample_world) ∅ [] (<[1 := <["useWisdom" := Py_False]> ∅]> ∅)) /\
  read_wisdom (F := sample_fftw) "wisdom.dat" 1 sample_world =
  (tt, World (F := sample_fftw) (fs sample_world) ∅ ["(fftw-3.3.8 fftwf_wisdom)"]
             (<[1 := <["useWisdom" := Py_True]> ∅]> ∅)).
Proof.
  split.
  - refine (eq_trans (proj1 (read_wisdom_spec (F := sample_fftw)
              "missing.dat" 1 sample_world) _) _).
    + reflexivity.
    + vm_compute. reflexivity.
  - refine (eq_trans (proj1 (proj2 (read_wisdom_spec (F := sample_fftw)
              "wisdom.dat" 1 sample_world)) "(fftw-3.3.8 fftwf_wisdom)" _) _).
    + reflexivity.
    + vm_compute. reflexivity.
Defined.

(** * Further properties *)

(** ** Shifts and digits *)

Lemma iter_pos_Pos_iter {T : Type} (f : T -> T) (p : positive) :
  forall x, SpecFloat.iter_pos f p x = Pos.iter f x p.
Proof.
  induction p as [p IH|p IH|]; intros x; cbn; [|by rewrite !IH|done].
  rewrite !IH. by rewrite <- !Pos.iter_swap.
Qed.

Lemma shr_1_div2 mrs : 0 <= shr_m mrs -> shr_m (shr_1 mrs) = shr_m mrs / 2.
Proof.
  destruct mrs as [m r s]. cbn. intros Hm.
  destruct m as [|[p|p|]|p]; cbn; try lia; try reflexivity.
  - rewrite Pos2Z.inj_xI. apply (Z.div_unique _ _ _ 1); lia.
  - rewrite Pos2Z.inj_xO. apply (Z.div_unique _ _ _ 0); lia.
Qed.

Lemma shr_iter_div (p : positive) :
  forall mrs, 0 <= shr_m mrs ->
    shr_m (SpecFloat.iter_pos shr_1 p mrs) = shr_m mrs / 2 ^ Z.pos p.
Proof.
  intros mrs Hm. rewrite iter_pos_Pos_iter.
  induction p as [|p IH] using Pos.peano_ind.
  - cbn [Pos.iter]. rewrite shr_1_div2 by done. reflexivity.
  - rewrite Pos.iter_succ.
    rewrite shr_1_div2.
    + rewrite IH, Pos2Z.inj_succ, Z.pow_succ_r by lia.
      rewrite Z.div_div by lia. f_equal. lia.
    + rewrite IH. apply Z.div_pos; lia.
Qed.

Lemma digits2_pos_bounds (m : positive) :
  2 ^ (Z.pos (digits2_pos m) - 1) <= Z.pos m < 2 ^ Z.pos (digits2_pos m).
Proof.
  induction m as [m IH|m IH|]; cbn [digits2_pos]; [| |cbn; lia].
  all: rewrite Pos2Z.inj_succ.
  all: replace (Z.succ (Z.pos (digits2_pos m)) - 1)
         with (Z.succ (Z.pos (digits2_pos m) - 1)) by lia.
  all: rewrite !Z.pow_succ_r by lia.
  - rewrite (Pos2Z.inj_xI m). lia.
  - rewrite (Pos2Z.inj_xO m). lia.
Qed.

Lemma shr_iter_xO (m k : positive) :
  SpecFloat.iter_pos shr_1 k (Build_shr_record (Z.pos (Pos.iter xO m k)) false false) =
  Build_shr_record (Z.pos m) false false.
Proof.
  rewrite iter_pos_Pos_iter.
  induction k as [|k IH] using Pos.peano_ind; [reflexivity|].
  rewrite Pos.iter_succ_r, Pos.iter_succ. exact IH.
Qed.

(** A canonical significand shifted left by [k] bits is rounded back to
    itself, exactly. *)
Lemma binary_round_aux_shifted p em s (m k : positive) e :
  bounded p em m e = true ->
  binary_round_aux p em s (Z.pos (Pos.iter xO m k)) (e - Z.pos k) loc_Exact =
  S754_finite s m e.
Proof.
  unfold bounded, canonical_mantissa. rewrite andb_true_iff, Z.eqb_eq, Z.leb_le.
  intros [Hcan Hmax].
  unfold binary_round_aux, shr_fexp. cbn [Zdigits2 shr_record_of_loc].
  rewrite digits2_pos_iter_xO.
  replace (Z.pos (digits2_pos m) + Z.pos k + (e - Z.pos k))
    with (Z.pos (digits2_pos m) + e) by lia.
  rewrite Hcan. replace (e - (e - Z.pos k)) with (Z.pos k) by lia.
  cbn [shr]. rewrite shr_iter_xO.
  cbn [shr_m loc_of_shr_record round_nearest_even Zdigits2 shr_record_of_loc].
  replace (e - Z.pos k + Z.pos k) with e by lia.
  rewrite Hcan, Z.sub_diag. cbn [shr shr_m].
  destruct (e <=? em - p) eqn:Hle; [done|]. apply Z.leb_gt in Hle. lia.
Qed.

Lemma round_nearest_even_ge m l : m <= round_nearest_even m l.
Proof.
  unfold round_nearest_even. destruct l as [|[]]; try lia.
  destruct (Z.even m); lia.
Qed.

(** One shift to the exponent of the format keeps a significand of at
    least the least positive number of the format positive. *)
Lemma shr_fexp_positive p em m E l :
  0 < p -> 1 <= m -> 2 ^ (emin p em - E) <= m ->
  1 <= shr_m (fst (shr_fexp p em m E l)) /\
  2 ^ (emin p em - snd (shr_fexp p em m E l)) <= shr_m (fst (shr_fexp p em m E l)).
Proof.
  intros Hp Hm Hlow. unfold shr_fexp.
  destruct m as [|mp|mp]; try lia. cbn [Zdigits2].
  pose proof (digits2_pos_bounds mp) as Hd.
  set (d := Z.pos (digits2_pos mp)) in *.
  unfold SpecFloat.fexp. fold (emin p em).
  destruct (Z.max (d + E - p) (emin p em) - E) as [|q|q] eqn:Hn; cbn [shr fst snd].
  - by rewrite shr_record_of_loc_m.
  - rewrite shr_iter_div by (rewrite shr_record_of_loc_m; lia).
    rewrite shr_record_of_loc_m.
    assert (2 ^ Z.pos q <= Z.pos mp) as Hq.
    { destruct (Z.max_spec (d + E - p) (emin p em)) as [[_ Hmax]|[_ Hmax]].
      - replace (Z.pos q) with (emin p em - E) by lia. done.
      - transitivity (2 ^ (d - 1)); [|lia]. apply Z.pow_le_mono_r; lia. }
    assert (1 <= Z.pos mp / 2 ^ Z.pos q) as Hdiv.
    { apply Z.div_le_lower_bound; lia. }
    split; [done|].
    transitivity 1; [|done].
    assert (emin p em - (E + Z.pos q) <= 0) as Hneg by lia.
    destruct (emin p em - (E + Z.pos q)) as [|r|r] eqn:Hr; [cbn; lia | lia |].
    rewrite Z.pow_neg_r; lia.
  - by rewrite shr_record_of_loc_m.
Qed.

(** The rounding of a positive number no smaller than the least positive
    number of the format is not a zero. *)
Lemma binary_round_aux_nonzero p em s (M : positive) E l :
  0 < p -> emin p em + 1 <= Z.pos (digits2_pos M) + E ->
  is_zero (binary_round_aux p em s (Z.pos M) E l) = false.
Proof.
  intros Hp Hbig. unfold binary_round_aux.
  assert (2 ^ (emin p em - E) <= Z.pos M) as Hlow.
  { pose proof (digits2_pos_bounds M) as Hd.
    transitivity (2 ^ (Z.pos (digits2_pos M) - 1)); [|lia].
    destruct (emin p em - E) as [|r|r] eqn:Hr; [| |rewrite Z.pow_neg_r; lia].
    - apply Z.pow_le_mono_r; lia.
    - rewrite <- Hr. apply Z.pow_le_mono_r; lia. }
  pose proof (shr_fexp_positive p em (Z.pos M) E l Hp ltac:(lia) Hlow) as [H1 H2].
  destruct (shr_fexp p em (Z.pos M) E l) as [mrs' e']. cbn [fst snd] in H1, H2.
  pose proof (round_nearest_even_ge (shr_m mrs') (loc_of_shr_record mrs')) as Hr.
  pose proof (shr_fexp_positive p em
                (round_nearest_even (shr_m mrs') (loc_of_shr_record mrs'))
                e' loc_Exact Hp ltac:(lia) ltac:(lia)) as [H3 _].
  destruct (shr_fexp p em _ e' loc_Exact) as [mrs'' e'']. cbn [fst] in H3.
  destruct (shr_m mrs'') as [|q|q]; [lia| |lia].
  by destruct (e'' <=? em - p).
Qed.

(** ** Multiplication by one *)

Lemma fmul_one (fmt : format) (x : spec_float) :
  fmt = binary32 \/ fmt = binary64 ->
  valid fmt x = true ->
  fmul fmt x (one fmt) = x.
Proof.
  intros Hfmt Hx. destruct x as [s|s| |s m e]; try (by destruct Hfmt as [-> | ->], s).
  { by destruct Hfmt as [-> | ->]. }
  unfold valid in Hx. cbn [valid_binary] in Hx.
  destruct Hfmt as [-> | ->].
  - change (one binary32) with (S754_finite false 8388608 (-23)).
    unfold fmul. cbn [SFmul prec emax binary32] in *.
    rewrite xorb_false_r, Pos.mul_comm.
    change (8388608 * m)%positive with (Pos.iter xO m 23).
    change (e + -23) with (e - Z.pos 23).
    by apply binary_round_aux_shifted.
  - change (one binary64) with (S754_finite false 4503599627370496 (-52)).
    unfold fmul. cbn [SFmul prec emax binary64] in *.
    rewrite xorb_false_r, Pos.mul_comm.
    change (4503599627370496 * m)%positive with (Pos.iter xO m 52).
    change (e + -52) with (e - Z.pos 52).
    by apply binary_round_aux_shifted.
Qed.

(** ** More on [blas_scal] *)

Section ScalFacts.
Context {IType : Type} {E : Elem IType}.

(** An address is one of the [N] addresses [X + i*incX], or none. *)
Lemma on_grid_dec (N X incX a : Z) :
  incX <> 0 ->
  (exists i, 0 <= i < N /\ a = X + i * incX) \/
  (forall i, 0 <= i < N -> a <> X + i * incX).
Proof.
  intros Hinc.
  destruct (decide (0 <= (a - X) / incX < N /\ a = X + (a - X) / incX * incX))
    as [Hon|Hoff].
  - left. by exists ((a - X) / incX).
  - right. intros i Hi ->. apply Hoff.
    replace (X + i * incX - X) with (i * incX) by lia.
    rewrite Z.div_mul by done. done.
Qed.

(** Elements that their product with [alpha] leaves as they are stay as
    they are, with any stride. *)
Lemma scal_loop_fixed (k : nat) :
  forall N alpha incX i X (h : gmap Z IType),
    Z.to_nat (N - i) = k ->
    (forall j, 0 <= j < N - i ->
       exists x, h !! (X + j * incX) = Some x /\ mul x alpha = x) ->
    scal_loop N alpha incX i X h = Some h.
Proof.
  induction k as [|k IH]; intros N alpha incX i X h Hk Hall.
  - apply scal_loop_exit. lia.
  - destruct (Hall 0 ltac:(lia)) as (x & Hx & Hfix).
    replace (X + 0 * incX) with X in Hx by lia.
    rewrite (scal_loop_step _ _ _ _ _ _ x) by (lia || done).
    rewrite Hfix, insert_id by done.
    apply IH; [lia|]. intros j Hj.
    replace (X + incX + j * incX) with (X + (j + 1) * incX) by lia.
    apply Hall. lia.
Qed.

(** With the stride zero, every iteration multiplies the one element at
    [X]. *)
Lemma scal_loop_zero_stride (k : nat) :
  forall N alpha i X (h : gmap Z IType) x,
    Z.to_nat (N - i) = k ->
    h !! X = Some x ->
    scal_loop N alpha 0 i X h =
    Some (<[X := Nat.iter k (fun v => mul v alpha) x]> h).
Proof.
  induction k as [|k IH]; intros N alpha i X h x Hk Hx.
  - rewrite scal_loop_exit by lia. cbn. by rewrite insert_id.
  - rewrite (scal_loop_step _ _ _ _ _ _ x) by (lia || done).
    rewrite Z.add_0_r.
    rewrite (IH N alpha (i + 1) X _ (mul x alpha)); [|lia|by rewrite lookup_insert_eq].
    by rewrite insert_insert_eq, Nat.iter_succ_r.
Qed.
End ScalFacts.

(** X1: scaling [float]s or [double]s that are not NaNs by [1.0] leaves
    the memory as it is, for every count and stride (zero included): the
    product of a number of the format with [1.0] is that number, zeros
    and infinities with their signs. *)
Theorem blas_scal_one (fmt : format) (N X incX : Z) (h : gmap Z spec_float) :
  fmt = binary32 \/ fmt = binary64 ->
  (forall i, 0 <= i < N ->
     exists x, h !! (X + i * incX) = Some x /\
               valid fmt x = true /\ is_nan x = false) ->
  blas_scal (E := real_elem fmt) N (one fmt) X incX h = Some h.
Proof.
  intros Hfmt Hall. unfold blas_scal.
  apply (scal_loop_fixed (E := real_elem fmt) (Z.to_nat (N - 0))); [done|].
  intros j Hj. destruct (Hall j ltac:(lia)) as (x & Hx & Hvalid & _).
  exists x. split; [done|]. by apply fmul_one.
Qed.

Lemma blas_scal_one_witness :
  blas_scal (E := real_elem binary64) 2 (one binary64) 0 2 sample_reals =
  Some sample_reals.
Proof.
  apply (blas_scal_one binary64 2 0 2 sample_reals).
  - right. reflexivity.
  - intros i Hi. assert (i = 0 \/ i = 1) as [-> | ->] by lia;
      eexists; repeat split; reflexivity.
Defined.

(** X2: with the stride zero, [blas_scal] multiplies the one element at
    [X] by [alpha] [N] times over and changes nothing else. *)
Theorem blas_scal_zero_stride {IType : Type} {E : Elem IType}
    (N : Z) (alpha : IType) (X : Z) (h : gmap Z IType) (x : IType) :
  0 <= N ->
  h !! X = Some x ->
  blas_scal N alpha X 0 h =
  Some (<[X := Nat.iter (Z.to_nat N) (fun v => mul v alpha) x]> h).
Proof.
  intros HN Hx. unfold blas_scal.
  rewrite (scal_loop_zero_stride (Z.to_nat (N - 0)) N alpha 0 X h x) by done.
  by rewrite Z.sub_0_r.
Qed.

Lemma blas_scal_zero_stride_witness :
  blas_scal (E := real_elem binary64) 3 (of_Z binary64 2) 1 0 sample_reals =
  Some (<[1 := of_Z binary64 40]> sample_reals).
Proof.
  refine (eq_trans (blas_scal_zero_stride (E := real_elem binary64)
            3 (of_Z binary64 2) 1 sample_reals (of_Z binary64 5) _ _) _).
  - lia.
  - reflexivity.
  - vm_compute. reflexivity.
Defined.

(** X3: with a stride other than zero, the direction of the walk does
    not matter to [blas_scal]: from the last element with the stride
    negated it leaves the same memory as from the first. *)
Theorem blas_scal_direction {IType : Type} {E : Elem IType}
    (N : Z) (alpha : IType) (X incX : Z) (h : gmap Z IType) :
  0 <= N -> incX <> 0 ->
  (forall i, 0 <= i < N -> is_Some (h !! (X + i * incX))) ->
  blas_scal N alpha (X + (N - 1) * incX) (- incX) h = blas_scal N alpha X incX h.
Proof.
  intros HN Hinc Hall. unfold blas_scal.
  destruct (scal_loop_inv (Z.to_nat (N - 0)) N alpha incX 0 X h)
    as (h1 & -> & Hs1 & Hf1 & _); [done | done | |].
  { intros j Hj. apply Hall. lia. }
  destruct (scal_loop_inv (Z.to_nat (N - 0)) N alpha (- incX) 0
              (X + (N - 1) * incX) h)
    as (h2 & -> & Hs2 & Hf2 & _); [done | lia | |].
  { intros j Hj.
    replace (X + (N - 1) * incX + j * - incX) with (X + (N - 1 - j) * incX) by lia.
    apply Hall. lia. }
  f_equal. apply map_eq. intros a.
  destruct (on_grid_dec N X incX a Hinc) as [(i & Hi & ->)|Hoff].
  - rewrite Hs1 by lia.
    replace (X + i * incX) with (X + (N - 1) * incX + (N - 1 - i) * - incX) at 1 by lia.
    rewrite Hs2 by lia. do 2 f_equal. lia.
  - rewrite Hf1 by (intros j Hj; apply Hoff; lia).
    apply Hf2. intros j Hj.
    replace (X + (N - 1) * incX + j * - incX) with (X + (N - 1 - j) * incX) by lia.
    apply Hoff. lia.
Qed.

Lemma blas_scal_direction_witness :
  blas_scal (E := real_elem binary64) 2 (of_Z binary64 2) (0 + (2 - 1) * 2) (- 2)
    sample_reals =
  blas_scal (E := real_elem binary64) 2 (of_Z binary64 2) 0 2 sample_reals.
Proof.
  apply (blas_scal_direction (E := real_elem binary64) 2 (of_Z binary64 2) 0 2).
  - lia.
  - lia.
  - intros i Hi. assert (i = 0 \/ i = 1) as [-> | ->] by lia; eexists; reflexivity.
Defined.

(** X4: with a stride other than zero, two calls of [blas_scal] on the
    same elements, with [alpha] and then with [beta], leave each element
    as [(x * alpha) * beta] and every other element as it was. *)
Theorem blas_scal_twice {IType : Type} {E : Elem IType}
    (N : Z) (alpha beta : IType) (X incX : Z) (h : gmap Z IType) :
  0 <= N -> incX <> 0 ->
  (forall i, 0 <= i < N -> is_Some (h !! (X + i * incX))) ->
  exists h1 h2,
    blas_scal N alpha X incX h = Some h1 /\
    blas_scal N beta X incX h1 = Some h2 /\
    (forall i, 0 <= i < N ->
       h2 !! (X + i * incX) =
       (fun x => mul (mul x alpha) beta) <$> h !! (X + i * incX)) /\
    (forall a, (forall i, 0 <= i < N -> a <> X + i * incX) -> h2 !! a = h !! a).
Proof.
  intros HN Hinc Hall. unfold blas_scal.
  destruct (scal_loop_inv (Z.to_nat (N - 0)) N alpha incX 0 X h)
    as (h1 & Hrun1 & Hs1 & Hf1 & _); [done | done | |].
  { intros j Hj. apply Hall. lia. }
  destruct (scal_loop_inv (Z.to_nat (N - 0)) N beta incX 0 X h1)
    as (h2 & Hrun2 & Hs2 & Hf2 & _); [done | done | |].
  { intros j Hj. rewrite Hs1 by done. rewrite fmap_is_Some. apply Hall. lia. }
  exists h1, h2. split; [done|]. split; [done|]. split.
  - intros i Hi. rewrite Hs2, Hs1 by lia.
    by destruct (h !! (X + i * incX)).
  - intros a Ha. rewrite Hf2, Hf1; [done | |]; intros j Hj; apply Ha; lia.
Qed.

Lemma blas_scal_twice_witness :
  exists h1 h2,
    blas_scal (E := real_elem binary64) 2 (of_Z binary64 2) 0 2 sample_reals = Some h1 /\
    blas_scal (E := real_elem binary64) 2 (of_Z binary64 3) 0 2 h1 = Some h2 /\
    h2 !! 0 = Some (of_Z binary64 6) /\
    h2 !! 1 = Some (of_Z binary64 5).
Proof.
  destruct (blas_scal_twice (E := real_elem binary64) 2
              (of_Z binary64 2) (of_Z binary64 3) 0 2 sample_reals)
    as (h1 & h2 & Hrun1 & Hrun2 & Hscaled & Hframe).
  - lia.
  - lia.
  - intros i Hi. assert (i = 0 \/ i = 1) as [-> | ->] by lia; eexists; reflexivity.
  - exists h1, h2. split; [exact Hrun1|]. split; [exact Hrun2|].
    split; [exact (Hscaled 0 ltac:(lia))|].
    apply (Hframe 1). intros i Hi. lia.
Defined.

(** ** More on [blas_dotc_sub] *)

(** X5: [blas_dotc_sub] loads the [N] elements of each of its two
    strided views and nothing else: in two memories that agree on those
    elements it returns the same result. *)
Theorem blas_dotc_sub_frame {IType : Type} {E : Elem IType} {C : Conj IType}
    {OType : Type} {A : Accum IType OType}
    (N X incX Y incY dotc : Z) (h h' : gmap Z IType) (ho : gmap Z OType) :
  (forall i, 0 <= i < N -> h' !! (X + i * incX) = h !! (X + i * incX)) ->
  (forall i, 0 <= i < N -> h' !! (Y + i * incY) = h !! (Y + i * incY)) ->
  blas_dotc_sub N X incX Y incY dotc h' ho = blas_dotc_sub N X incX Y incY dotc h ho.
Proof.
  intros HX HY. unfold blas_dotc_sub.
  rewrite (dotc_loop_ext (Z.to_nat (N - 0)) N incX incY incX incY h' h 0 X Y X Y zero);
    [done | done | |]; intros j Hj; [apply HX | apply HY]; lia.
Qed.

Lemma blas_dotc_sub_frame_witness :
  blas_dotc_sub (E := complex_elem (rt := limited_range) binary64)
    2 10 1 20 1 0 (<[12 := huge]> (sample_mem binary64)) (sample_out binary64) =
  blas_dotc_sub (E := complex_elem (rt := limited_range) binary64)
    2 10 1 20 1 0 (sample_mem binary64) (sample_out binary64).
Proof.
  apply (blas_dotc_sub_frame (E := complex_elem (rt := limited_range) binary64)
           2 10 1 20 1 0);
    intros i Hi; assert (i = 0 \/ i = 1) as [-> | ->] by lia; reflexivity.
Defined.

Section ZeroVector.
Context {rt : ComplexRuntime} {fmt : format}.

(** The term of a zero sample and a finite one is a zero, of some signs,
    and leaves the accumulator [+0 + 0i] as it is. *)
Lemma cadd_czero_zero_term (x y : complex fmt) :
  cx_is_zero x && cx_is_finite y || cx_is_finite x && cx_is_zero y = true ->
  cadd czero (cmul (cconj x) y) = czero.
Proof.
  destruct x as [xr xi], y as [yr yi].
  unfold cx_is_zero, cx_is_finite. cbn [real imag].
  destruct xr as [[]|[]| |[] ? ?], xi as [[]|[]| |[] ? ?],
           yr as [[]|[]| |[] ? ?], yi as [[]|[]| |[] ? ?];
    try discriminate; intros _; reflexivity.
Qed.

Lemma zero_dotc_loop (k : nat) :
  forall N incX incY (h : gmap Z (complex fmt)) i X Y,
    Z.to_nat (N - i) = k ->
    (forall j, 0 <= j < N - i ->
       exists x y, h !! (X + j * incX) = Some x /\ h !! (Y + j * incY) = Some y /\
                   cx_is_zero x && cx_is_finite y || cx_is_finite x && cx_is_zero y = true) ->
    dotc_loop N incX incY h i X Y (czero (fmt := fmt)) = Some czero.
Proof.
  induction k as [|k IH]; intros N incX incY h i X Y Hk Hall.
  - apply dotc_loop_exit. lia.
  - destruct (Hall 0 ltac:(lia)) as (x & y & Hx & Hy & Hzero).
    replace (X + 0 * incX) with X in Hx by lia.
    replace (Y + 0 * incY) with Y in Hy by lia.
    rewrite dotc_loop_step by lia. rewrite Hx, Hy.
    cbn [add_assign mul conj complex_accum complex_elem complex_conj].
    rewrite cadd_czero_zero_term by done.
    apply IH; [lia|]. intros j Hj.
    replace (X + incX + j * incX) with (X + (j + 1) * incX) by lia.
    replace (Y + incY + j * incY) with (Y + (j + 1) * incY) by lia.
    apply Hall. lia.
Qed.
End ZeroVector.

(** X8: when, at every index, one of the two complex samples is a zero
    (of any signs) and the other has finite parts, [blas_dotc_sub]
    returns exactly [+0 + 0i]: the zero terms, whatever their signs,
    leave the accumulator as it is. *)
Theorem blas_dotc_sub_zero_vector {rt : ComplexRuntime} {fmt : format}
    (N X incX Y incY dotc : Z) (h ho : gmap Z (complex fmt)) :
  (forall i, 0 <= i < N ->
     exists x y, h !! (X + i * incX) = Some x /\ h !! (Y + i * incY) = Some y /\
                 cx_is_zero x && cx_is_finite y || cx_is_finite x && cx_is_zero y = true) ->
  is_Some (ho !! dotc) ->
  blas_dotc_sub N X incX Y incY dotc h ho = Some (<[dotc := czero]> ho).
Proof.
  intros Hall Hout. unfold blas_dotc_sub.
  change (@zero _ _ (complex_accum fmt)) with (czero (fmt := fmt)).
  rewrite (zero_dotc_loop (Z.to_nat (N - 0)) N incX incY h 0 X Y); [|done|].
  - by apply store_allocated.
  - intros j Hj. apply Hall. lia.
Qed.

Lemma blas_dotc_sub_zero_vector_witness :
  blas_dotc_sub (E := complex_elem (rt := limited_range) binary64)
    2 10 1 30 0 0
    (<[30 := Cx nzero pzero]> (sample_mem binary64)) (sample_out binary64) =
  Some (<[0 := czero]> (sample_out binary64)).
Proof.
  apply (blas_dotc_sub_zero_vector (rt := limited_range) 2 10 1 30 0 0).
  - intros i Hi. assert (i = 0 \/ i = 1) as [-> | ->] by lia;
      do 2 eexists; (split; [reflexivity|]); (split; reflexivity).
  - eexists; reflexivity.
Defined.

(** X9: with a stride [incY] other than zero, scaling the elements of
    [Y] in place by [alpha] and taking the conjugate dot product with an
    [X] that shares no element with [Y] gives the sum of the terms
    [conj(x_i) * (y_i * alpha)]. *)
Theorem blas_dotc_sub_after_scal {IType : Type} {E : Elem IType} {C : Conj IType}
    {OType : Type} {A : Accum IType OType}
    (N X incX Y incY dotc : Z) (alpha : IType)
    (h : gmap Z IType) (ho : gmap Z OType) (xs ys : Z -> IType) :
  0 <= N -> incY <> 0 ->
  (forall i, 0 <= i < N -> h !! (X + i * incX) = Some (xs i)) ->
  (forall i, 0 <= i < N -> h !! (Y + i * incY) = Some (ys i)) ->
  (forall i j, 0 <= i < N -> 0 <= j < N -> X + i * incX <> Y + j * incY) ->
  is_Some (ho !! dotc) ->
  exists h1,
    blas_scal N alpha Y incY h = Some h1 /\
    blas_dotc_sub N X incX Y incY dotc h1 ho =
    Some (<[dotc := dotc_sum xs (fun i => mul (ys i) alpha) N]> ho).
Proof.
  intros HN Hinc HX HY Hdisj Hout. unfold blas_scal.
  destruct (scal_loop_inv (Z.to_nat (N - 0)) N alpha incY 0 Y h)
    as (h1 & Hrun & Hscaled & Hframe & _); [done | done | |].
  { intros j Hj. rewrite HY by lia. done. }
  exists h1. split; [done|].
  apply blas_dotc_sub_run; [| |done].
  - intros i Hi. rewrite Hframe; [by apply HX|].
    intros j Hj. apply Hdisj; lia.
  - intros i Hi. rewrite Hscaled by lia. by rewrite HY.
Qed.

Lemma blas_dotc_sub_after_scal_witness :
  exists h1,
    blas_scal (E := complex_elem (rt := limited_range) binary64)
      2 (cx_of_Z binary64 2 0) 20 1 (sample_mem binary64) = Some h1 /\
    blas_dotc_sub (E := complex_elem (rt := limited_range) binary64)
      2 10 1 20 1 0 h1 (sample_out binary64) =
    Some (<[0 := cx_of_Z binary64 2 (-2)]> (sample_out binary64)).
Proof.
  destruct (blas_dotc_sub_after_scal
              (E := complex_elem (rt := limited_range) binary64)
              2 10 1 20 1 0 (cx_of_Z binary64 2 0)
              (sample_mem binary64) (sample_out binary64)
              (fun i => if decide (i = 0) then cx_of_Z binary64 1 2 else cx_of_Z binary64 3 (-1))
              (fun i => if decide (i = 0) then cx_of_Z binary64 2 0 else cx_of_Z binary64 0 1))
    as (h1 & Hrun & Hdot).
  - lia.
  - lia.
  - apply sample_mem_X.
  - apply sample_mem_Y.
  - intros i j Hi Hj. lia.
  - eexists; reflexivity.
  - exists h1. split; [exact Hrun|].
    refine (eq_trans Hdot _). vm_compute. reflexivity.
Defined.

(** ** More facts of IEEE arithmetic *)

Lemma fneg_involutive x : fneg (fneg x) = x.
Proof. destruct x as [s|s| |s m e]; cbn; by rewrite ?negb_involutive. Qed.

Lemma feq_fneg_zero x : feq (fneg x) pzero = feq x pzero.
Proof. by destruct x as [[]|[]| |[] m e]. Qed.

Lemma fadd_comm fmt x y : fadd fmt x y = fadd fmt y x.
Proof.
  unfold fadd.
  destruct x as [sx|sx| |sx mx ex], y as [sy|sy| |sy my ey]; cbn;
    try reflexivity; try (by destruct sx, sy).
  by rewrite (Z.min_comm ey ex), Z.add_comm.
Qed.

Lemma fmul_fneg_fneg fmt x y : fmul fmt (fneg x) (fneg y) = fmul fmt x y.
Proof.
  rewrite fmul_fneg_l, (fmul_comm fmt x (fneg y)), fmul_fneg_l.
  by rewrite fneg_involutive, fmul_comm.
Qed.

Lemma fdiv_fneg_fneg fmt x y : fdiv fmt (fneg x) (fneg y) = fdiv fmt x y.
Proof.
  unfold fdiv, fneg.
  destruct x as [sx|sx| |sx mx ex], y as [sy|sy| |sy my ey]; cbn [SFopp SFdiv];
    try reflexivity; by destruct sx, sy.
Qed.

Lemma binary_round_opp p em s m e :
  binary_round p em (negb s) m e = SFopp (binary_round p em s m e).
Proof.
  unfold binary_round. destruct (shl_align _ _ _) as [mz ez].
  apply binary_round_aux_opp.
Qed.

Lemma fconv_fneg fmt x : fconv fmt (fneg x) = fneg (fconv fmt x).
Proof.
  destruct x as [s|s| |s m e]; try reflexivity.
  destruct s.
  - exact (binary_round_opp _ _ true m e).
  - exact (binary_round_opp _ _ false m e).
Qed.

Lemma binary_round_not_nan p em s m e : is_nan (binary_round p em s m e) = false.
Proof.
  unfold binary_round. destruct (shl_align _ _ _) as [mz ez].
  by apply binary_round_aux_sign.
Qed.

Lemma binary_normalize_not_nan p em m e sz :
  is_nan (binary_normalize p em m e sz) = false.
Proof. destruct m; cbn; [done| |]; apply binary_round_not_nan. Qed.

Lemma fconv_nan fmt x : is_nan (fconv fmt x) = is_nan x.
Proof.
  destruct x as [s|s| |s m e]; try reflexivity.
  apply binary_normalize_not_nan.
Qed.

Lemma fmul_finite_nan fmt s m e c :
  is_nan (fmul fmt (S754_finite s m e) c) = is_nan c.
Proof.
  destruct c as [sc|sc| |sc mc ec]; try reflexivity.
  unfold fmul. cbn [SFmul]. by apply binary_round_aux_sign.
Qed.

Lemma fsub_finite_nan fmt s m e y :
  is_nan (fsub fmt (S754_finite s m e) y) = is_nan y.
Proof.
  destruct y as [sy|sy| |sy my ey]; try reflexivity.
  unfold fsub. cbn [SFsub]. apply binary_normalize_not_nan.
Qed.

Lemma Zdiv_eucl_fst_nonneg a b : 0 <= a -> 0 < b -> 0 <= fst (Z.div_eucl a b).
Proof.
  intros Ha Hb. change (fst (Z.div_eucl a b)) with (a / b).
  apply Z.div_pos; lia.
Qed.

(** A finite dividend over a divisor that is neither a zero nor a NaN
    gives no NaN. *)
Lemma fdiv_not_nan fmt x y :
  is_finite x = true -> is_zero y = false -> is_nan y = false ->
  is_nan (fdiv fmt x y) = false.
Proof.
  destruct x as [sx|sx| |sx mx ex], y as [sy|sy| |sy my ey]; try done.
  intros _ _ _. unfold fdiv. cbn [SFdiv]. unfold SFdiv_core_binary.
  set (m' := match _ : Z with Z.pos _ => _ | Z0 => _ | Z.neg _ => _ end).
  assert (0 <= m') as Hm'.
  { unfold m'. destruct (_ - _ - _) as [|q|q]; [lia| |lia].
    apply Z.shiftl_nonneg. lia. }
  pose proof (Zdiv_eucl_fst_nonneg m' (Z.pos my) Hm' ltac:(lia)) as Hq.
  destruct (Z.div_eucl m' (Z.pos my)) as [q r]. cbn [fst] in Hq.
  by apply binary_round_aux_sign.
Qed.

(** ** The divisor of [sinc] *)

Lemma valid_binary64_exponent s m e :
  valid binary64 (S754_finite s m e) = true -> -1074 <= e.
Proof.
  unfold valid. cbn [valid_binary prec emax binary64].
  unfold bounded, canonical_mantissa, SpecFloat.fexp, emin.
  rewrite andb_true_iff, Z.eqb_eq. lia.
Qed.

(** A canonical significand is rounded to itself. *)
Lemma binary_round_aux_canonical p em s (m : positive) e :
  bounded p em m e = true ->
  binary_round_aux p em s (Z.pos m) e loc_Exact = S754_finite s m e.
Proof.
  unfold bounded, canonical_mantissa. rewrite andb_true_iff, Z.eqb_eq, Z.leb_le.
  intros [Hcan Hmax].
  unfold binary_round_aux, shr_fexp. cbn [Zdigits2 shr_record_of_loc].
  rewrite Hcan, Z.sub_diag.
  cbn [shr shr_m loc_of_shr_record round_nearest_even Zdigits2 shr_record_of_loc].
  rewrite Hcan, Z.sub_diag. cbn [shr shr_m].
  destruct (e <=? em - p) eqn:Hle; [done|]. apply Z.leb_gt in Hle. lia.
Qed.

Lemma fconv_binary64_exponent (s : bool) (m : positive) (e : Z) :
  valid binary32 (S754_finite s m e) = true ->
  exists m' e', fconv binary64 (S754_finite s m e) = S754_finite s m' e' /\ -1074 <= e'.
Proof.
  unfold valid. cbn [valid_binary prec emax binary32].
  unfold bounded, canonical_mantissa, SpecFloat.fexp, emin.
  rewrite andb_true_iff, Z.eqb_eq, Z.leb_le. intros [Hcan Hmax].
  set (d := Z.pos (digits2_pos m)) in *.
  assert (0 < d) as Hd by (unfold d; lia).
  set (f := Z.max (d + e - 53) (3 - 1024 - 53)).
  assert (f < e) as Hfe by lia.
  destruct (e - f) as [|k|k] eqn:Hk; try lia.
  assert (f - e = Z.neg k) as Hneg by lia.
  exists (Pos.iter xO m k), f. split; [|lia].
  assert (binary_round 53 1024 s m e = S754_finite s (Pos.iter xO m k) f) as Hround.
  { unfold binary_round, SpecFloat.fexp, emin. fold d. fold f.
    unfold shl_align. rewrite Hneg.
    apply binary_round_aux_canonical.
    unfold bounded, canonical_mantissa, SpecFloat.fexp, emin.
    rewrite andb_true_iff, Z.eqb_eq, Z.leb_le, digits2_pos_iter_xO. fold d.
    replace (d + Z.pos k + f) with (d + e) by lia. fold f. lia. }
  unfold fconv. cbn [prec emax binary64]. destruct s; exact Hround.
Qed.

Lemma fmul_NPY_PI_nonzero s m e :
  -1074 <= e ->
  is_zero (fmul binary64 (S754_finite s m e) NPY_PI) = false /\
  is_nan (fmul binary64 (S754_finite s m e) NPY_PI) = false.
Proof.
  intros He. split; [|by rewrite fmul_finite_nan].
  unfold fmul, NPY_PI. cbn [SFmul prec emax binary64].
  apply binary_round_aux_nonzero; [lia|].
  pose proof (digits2_pos_bounds (m * 7074237752028440)) as [_ Hd].
  assert (2 ^ 52 < 2 ^ Z.pos (digits2_pos (m * 7074237752028440))) as Hpow.
  { eapply Z.le_lt_trans; [|exact Hd]. rewrite Pos2Z.inj_mul.
    change (2 ^ 52) with 4503599627370496. nia. }
  apply Z.pow_lt_mono_r_iff in Hpow; [|lia|lia].
  unfold emin. lia.
Qed.

(** For any argument of the format that is neither a zero nor a NaN,
    the divisor [x * NPY_PI] is neither a zero nor a NaN. *)
Lemma sinc_divisor x :
  is_nan x = false -> feq x pzero = false ->
  (forall s m e, x = S754_finite s m e -> -1074 <= e) ->
  is_zero (fmul binary64 x NPY_PI) = false /\
  is_nan (fmul binary64 x NPY_PI) = false.
Proof.
  intros Hnan Hne Hexp. destruct x as [s|[]| |s m e]; try done.
  apply fmul_NPY_PI_nonzero. by apply (Hexp s m e).
Qed.

(** ** More on [sinc] *)

(** X10: with a libm whose sine is odd wherever it is a number, [sinc]
    is even wherever it is a number, in both overloads: if [sinc(x)] is
    not a NaN then [sinc(-x)] is the same number. *)
Theorem sinc_even {libm : Libm} (x : spec_float) :
  (forall y, is_nan (sin y) = false -> sin (fneg y) = fneg (sin y)) ->
  (is_nan (F64.sinc x) = false -> F64.sinc (fneg x) = F64.sinc x) /\
  (is_nan (F32.sinc x) = false -> F32.sinc (fneg x) = F32.sinc x).
Proof.
  intros Hodd. unfold F64.sinc, F32.sinc.
  rewrite fconv_fneg, !feq_fneg_zero, !fmul_fneg_l.
  split.
  - destruct (feq x pzero); [done|]. intros Hnum.
    rewrite Hodd, fdiv_fneg_fneg; [done|].
    by destruct (sin (fmul binary64 x NPY_PI)).
  - destruct (feq (fconv binary64 x) pzero); [done|]. rewrite fconv_nan. intros Hnum.
    rewrite Hodd, fdiv_fneg_fneg; [done|].
    by destruct (sin (fmul binary64 (fconv binary64 x) NPY_PI)).
Qed.

Lemma libm_tiny_odd (y : spec_float) :
  is_nan (sin (Libm := libm_tiny) y) = false ->
  sin (Libm := libm_tiny) (fneg y) = fneg (sin (Libm := libm_tiny) y).
Proof.
  intros _. cbn [sin libm_tiny].
  replace (SFabs (fneg y)) with (SFabs y) by (by destruct y).
  by destruct (SFltb (SFabs y) d_2m27).
Defined.

Lemma sinc_even_witness :
  F64.sinc (libm := libm_tiny) (fneg d_2m30) = F64.sinc (libm := libm_tiny) d_2m30 /\
  F32.sinc (libm := libm_tiny) (fneg f_2m30) = F32.sinc (libm := libm_tiny) f_2m30.
Proof.
  split.
  - apply (sinc_even (libm := libm_tiny) d_2m30); [exact libm_tiny_odd | reflexivity].
  - apply (sinc_even (libm := libm_tiny) f_2m30); [exact libm_tiny_odd | reflexivity].
Defined.

(** X11: the test [x == 0] is all that [sinc] needs to never divide by
    zero: for every argument of the format that is neither a zero nor a
    NaN, the divisor [x * NPY_PI] is neither a zero nor a NaN, and
    [sinc(x)] is no NaN wherever libm's sine of it is finite. *)
Theorem sinc_divisor_nonzero {libm : Libm} (x : spec_float) :
  is_nan x = false -> feq x pzero = false ->
  (valid binary64 x = true ->
   is_zero (fmul binary64 x NPY_PI) = false /\
   is_nan (fmul binary64 x NPY_PI) = false /\
   (is_finite (sin (fmul binary64 x NPY_PI)) = true -> is_nan (F64.sinc x) = false)) /\
  (valid binary32 x = true ->
   is_zero (fmul binary64 (fconv binary64 x) NPY_PI) = false /\
   is_nan (fmul binary64 (fconv binary64 x) NPY_PI) = false /\
   (is_finite (sin (fmul binary64 (fconv binary64 x) NPY_PI)) = true ->
    is_nan (F32.sinc x) = false)).
Proof.
  intros Hnan Hne. split; intros Hvalid.
  - destruct (sinc_divisor x Hnan Hne) as [Hz Hn].
    { intros s m e ->. by apply (valid_binary64_exponent s m e). }
    split; [done|]. split; [done|]. intros Hsin.
    unfold F64.sinc. rewrite Hne. by apply fdiv_not_nan.
  - assert (feq (fconv binary64 x) pzero = false) as Hne'.
    { by rewrite feq_zero_fconv_binary64. }
    destruct (sinc_divisor (fconv binary64 x)) as [Hz Hn].
    { by rewrite fconv_nan. }
    { done. }
    { intros s m e Hx. destruct x as [sx|sx| |sx mx ex]; try discriminate Hx.
      destruct (fconv_binary64_exponent sx mx ex Hvalid) as (m' & e' & Hconv & He').
      rewrite Hconv in Hx. by injection Hx as _ _ <-. }
    split; [done|]. split; [done|]. intros Hsin.
    unfold F32.sinc. rewrite Hne', fconv_nan. by apply fdiv_not_nan.
Qed.

Lemma sinc_divisor_nonzero_witness :
  is_nan (F64.sinc (libm := libm_tiny) d_2m30) = false /\
  is_nan (F32.sinc (libm := libm_tiny) f_2m30) = false.
Proof.
  split.
  - destruct (sinc_divisor_nonzero (libm := libm_tiny) d_2m30 eq_refl eq_refl)
      as [H64 _].
    destruct (H64 eq_refl) as (_ & _ & H). exact (H eq_refl).
  - destruct (sinc_divisor_nonzero (libm := libm_tiny) f_2m30 eq_refl eq_refl)
      as [_ H32].
    destruct (H32 eq_refl) as (_ & _ & H). exact (H eq_refl).
Defined.

(** ** More on [hanning] and [hamming] *)

(** X12: a window value is a NaN exactly when libm's cosine is one: the
    two roundings of [a - b*cos(x)], and the narrowing to [float], make
    no NaN of a number, an infinity included. *)
Theorem window_nan {libm : Libm} (x : spec_float) :
  is_nan (F64.hanning x) = is_nan (cos x) /\
  is_nan (F64.hamming x) = is_nan (cos x) /\
  is_nan (F32.hanning x) = is_nan (cos_float x) /\
  is_nan (F32.hamming x) = is_nan (cos_float x).
Proof.
  unfold F64.hanning, F64.hamming, F32.hanning, F32.hamming, d_0_5, d_0_54, d_0_46.
  by rewrite !fconv_nan, !fsub_finite_nan, !fmul_finite_nan.
Qed.

(** ** More on [abs2] *)

Lemma fadd_pzero_r fmt x : sign_bit x = false -> fadd fmt x pzero = x.
Proof. destruct x as [[]|[]| |[] m e]; done. Qed.

Lemma fmul_self_sign fmt x : sign_bit (fmul fmt x x) = false.
Proof.
  destruct x as [[]|[]| |s m e]; try reflexivity.
  destruct s;
    exact (proj2 (binary_round_aux_sign _ _ false _ _ loc_Exact
                    (Pos2Z.is_nonneg (m * m)))).
Qed.

(** X13: for a sample without a NaN part, [abs2] does not tell the
    sample from its conjugate or from its negation: the results are the
    same number; and for a sample with a zero imaginary part it is the
    rounded square of the real part. *)
Theorem abs2_symmetries (fmt : format) (z : complex fmt) :
  is_nan (real z) = false -> is_nan (imag z) = false ->
  is_nan (abs2 z) = false /\
  abs2 (cconj z) = abs2 z /\
  abs2 (@Cx fmt (fneg (real z)) (fneg (imag z))) = abs2 z /\
  (forall s : bool, abs2 (@Cx fmt (real z) (S754_zero s)) = fmul fmt (real z) (real z)).
Proof.
  intros Hre Him. split; [by rewrite abs2_nan, Hre, Him|].
  unfold abs2, cconj. cbn [real imag].
  rewrite !fmul_fneg_fneg. split; [done|]. split; [done|].
  intros s. replace (fmul fmt (S754_zero s) (S754_zero s)) with pzero by (by destruct s).
  apply fadd_pzero_r, fmul_self_sign.
Qed.

Lemma abs2_symmetries_witness :
  abs2 (cconj (cx_of_Z binary64 3 (-1))) = abs2 (cx_of_Z binary64 3 (-1)) /\
  abs2 (cx_of_Z binary64 3 (-1)) = of_Z binary64 10.
Proof.
  split.
  - apply (abs2_symmetries binary64 (cx_of_Z binary64 3 (-1))); reflexivity.
  - reflexivity.
Defined.
